(** * Smart select: grow/shrink selection chain and bracket expansion

    A shallow embedding of
    [src/vs/editor/contrib/smartSelect/common/smartSelect.ts]:

    - [ExpandBracket]: the per-selection callback of
      [ExpandBracketController.run] over a bracket-query model;
    - [SmartSelect]: [SmartSelectController.run] over an explicit store
      holding the module-level variables [state] and [ignoreSelection],
      the [State] objects and the editors' selections.

    Positions, ranges and selections come first; they are imported by the
    source file and are modelled here. *)

From Stdlib Require Import ZArith Lia Bool List Ascii String Sorted.
From stdpp Require Import base list.
Import ListNotations.
Local Open Scope nat_scope.

(* ===================================================================== *)
(** ** Positions, ranges, selections *)
(* ===================================================================== *)

(** Modelled from the spec: [Position] of vs/editor/common/core/position,
    a (line, column) pair, 1-based, totally ordered by (line, column). *)
Record Position := mkPosition { lineNumber : nat; column : nat }.

Definition Position_equals (a b : Position) : bool :=
  (lineNumber a =? lineNumber b) && (column a =? column b).

Definition isBefore (a b : Position) : bool :=
  if lineNumber a <? lineNumber b then true
  else if lineNumber b <? lineNumber a then false
  else column a <? column b.

Definition isBeforeOrEqual (a b : Position) : bool :=
  if lineNumber a <? lineNumber b then true
  else if lineNumber b <? lineNumber a then false
  else column a <=? column b.

Definition clone (a : Position) : Position :=
  mkPosition (lineNumber a) (column a).

(** Modelled from the spec: [Range] of vs/editor/common/core/range, a
    (start, end) pair with start <= end under the position order. *)
Record Range := mkRange {
  startLineNumber : nat;
  startColumn : nat;
  endLineNumber : nat;
  endColumn : nat
}.

(** [new Range(a, b, c, d)]: the two positions are put in order, so that
    every constructed range has start <= end. *)
Definition newRange (sl sc el ec : nat) : Range :=
  if isBefore (mkPosition el ec) (mkPosition sl sc)
  then mkRange el ec sl sc
  else mkRange sl sc el ec.

Definition getStartPosition (r : Range) : Position :=
  mkPosition (startLineNumber r) (startColumn r).

Definition getEndPosition (r : Range) : Position :=
  mkPosition (endLineNumber r) (endColumn r).

(** Inclusive containment. *)
Definition containsPosition (r : Range) (p : Position) : bool :=
  isBeforeOrEqual (getStartPosition r) p && isBeforeOrEqual p (getEndPosition r).

Definition containsRange (r other : Range) : bool :=
  isBeforeOrEqual (getStartPosition r) (getStartPosition other)
  && isBeforeOrEqual (getEndPosition other) (getEndPosition r).

Definition equalsRange (a b : Range) : bool :=
  (startLineNumber a =? startLineNumber b) && (startColumn a =? startColumn b)
  && (endLineNumber a =? endLineNumber b) && (endColumn a =? endColumn b).

(** Modelled from the spec: [Selection] of vs/editor/common/core/selection,
    a range plus directionality: the anchor ([selectionStart...]) and the
    active end ([position...]). *)
Record Selection := newSelection {
  selectionStartLineNumber : nat;
  selectionStartColumn : nat;
  positionLineNumber : nat;
  positionColumn : nat
}.

(** The range a selection covers ([Selection] extends [Range]). *)
Definition selectionRange (s : Selection) : Range :=
  newRange (selectionStartLineNumber s) (selectionStartColumn s)
           (positionLineNumber s) (positionColumn s).

Definition Selection_getStartPosition (s : Selection) : Position :=
  getStartPosition (selectionRange s).

Definition Selection_getEndPosition (s : Selection) : Position :=
  getEndPosition (selectionRange s).

(* ===================================================================== *)
(** ** Bracket expansion *)
(* ===================================================================== *)

Module ExpandBracket.

(** [IFoundBracket], restricted to the fields the controller reads. *)
Record IFoundBracket := mkFoundBracket { range : Range; isOpen : bool }.

(** The [[Range, Range]] array returned by [matchBracket]. JavaScript
    compares arrays by identity ([===]); [ident] stands for the identity
    of the array object, [at0] and [at1] for its two entries. *)
Record RangePair := mkRangePair { ident : nat; at0 : Range; at1 : Range }.

(** The three bracket queries of the editor model used by the controller.
    Their implementation lives in the text model, outside this file. *)
Record ITextModel := mkTextModel {
  findPrevBracket : Position -> option IFoundBracket;
  findNextBracket : Position -> option IFoundBracket;
  matchBracket : Position -> option RangePair
}.

(** [new Selection(m[0].startLineNumber, m[0].startColumn,
                   m[1].endLineNumber, m[1].endColumn)]: the pair's full
    span when [m[0]] is its opening bracket. *)
Definition fullSpan (m : RangePair) : Selection :=
  newSelection (startLineNumber (at0 m)) (startColumn (at0 m))
               (endLineNumber (at1 m)) (endColumn (at1 m)).

(** [new Selection(m[0].endLineNumber, m[0].endColumn,
                   m[1].startLineNumber, m[1].startColumn)]: the pair's
    interior when [m[0]] is its opening bracket. *)
Definition interior (m : RangePair) : Selection :=
  newSelection (endLineNumber (at0 m)) (endColumn (at0 m))
               (startLineNumber (at1 m)) (startColumn (at1 m)).

(** [a && a === b] on possibly-null array references. *)
Definition sameArray (a b : option RangePair) : bool :=
  match a, b with
  | Some x, Some y => ident x =? ident y
  | _, _ => false
  end.

Section Expand.

Variable model : ITextModel.

(** Lines 182-199: a direct neighbor bracket to the current selection. *)
Definition directNeighbor (selection : Selection) : option Selection :=
  let originalStartPosition := Selection_getStartPosition selection in
  match findPrevBracket model originalStartPosition with
  | Some prevBracket =>
      if Position_equals (getEndPosition (range prevBracket)) originalStartPosition
      then
        match matchBracket model (getStartPosition (range prevBracket)) with
        | Some matchPrevBracket =>
            if isOpen prevBracket
            then Some (fullSpan matchPrevBracket)
            else Some (interior matchPrevBracket)
        | None => None
        end
      else None
  | None => None
  end.

(** Lines 201-227: the selection is directly inside a set of brackets, or
    the cursor (not a selection) touches a matchable bracket. *)
Definition touchingBrackets (selection : Selection) : option Selection :=
  let originalStartPosition := Selection_getStartPosition selection in
  let originalEndPosition := Selection_getEndPosition selection in
  let matchPrev := matchBracket model originalStartPosition in
  let matchNext := matchBracket model originalEndPosition in
  match matchPrev, matchNext with
  | Some mp, Some mn =>
      if equalsRange (at0 mp) (at1 mn)
         && negb (Position_equals (getStartPosition (at0 mp)) originalStartPosition)
      then Some (fullSpan mp)
      else if Position_equals originalStartPosition originalEndPosition
      then Some (fullSpan mp)
      else None
  | Some mp, None =>
      if Position_equals originalStartPosition originalEndPosition
      then Some (fullSpan mp)
      else None
  | None, Some mn =>
      if Position_equals originalStartPosition originalEndPosition
      then Some (fullSpan mn)
      else None
  | None, None => None
  end.

(** Lines 229-238: the [do ... while (prevBracket && setCount >= 0)] loop.
    [None] when the fuel runs out; otherwise the value of [prevBracket]
    when the loop exits. *)
Fixpoint scanPrev (fuel : nat) (currentPosition : Position) (setCount : Z)
  : option (option IFoundBracket) :=
  match fuel with
  | O => None
  | S fuel' =>
      match findPrevBracket model currentPosition with
      | None => Some None
      | Some prevBracket =>
          let currentPosition' := getStartPosition (range prevBracket) in
          let setCount' :=
            if negb (isOpen prevBracket) then (setCount + 1)%Z else (setCount - 1)%Z in
          if (0 <=? setCount')%Z
          then scanPrev fuel' currentPosition' setCount'
          else Some (Some prevBracket)
      end
  end.

(** Lines 240-250: the [do ... while (nextBracket && setCount >= 0)] loop. *)
Fixpoint scanNext (fuel : nat) (currentPosition : Position) (setCount : Z)
  : option (option IFoundBracket) :=
  match fuel with
  | O => None
  | S fuel' =>
      match findNextBracket model currentPosition with
      | None => Some None
      | Some nextBracket =>
          let currentPosition' := getEndPosition (range nextBracket) in
          let setCount' :=
            if isOpen nextBracket then (setCount + 1)%Z else (setCount - 1)%Z in
          if (0 <=? setCount')%Z
          then scanNext fuel' currentPosition' setCount'
          else Some (Some nextBracket)
      end
  end.

(** The [if / else if] cascade of lines 260-275 either assigns
    [bracketsToSelect] or returns from the callback. *)
Inductive Cascade :=
| Assign (bracketsToSelect : option RangePair)
| Return (s : Selection).

(** Lines 252-291: validity check and choice of the outermost set. *)
Definition pickOutermost (selection : Selection)
    (prevBracket nextBracket : option IFoundBracket) : Selection :=
  match prevBracket, nextBracket with
  | None, None => selection
  | _, _ =>
      let matchPrev :=
        match prevBracket with
        | Some b => matchBracket model (getStartPosition (range b))
        | None => None
        end in
      let matchNext :=
        match nextBracket with
        | Some b => matchBracket model (getStartPosition (range b))
        | None => None
        end in
      let cascade :=
        match matchPrev, matchNext with
        | None, _ => Assign matchNext
        | Some _, None => Assign matchPrev
        | Some mp, Some mn =>
            if isBefore (getEndPosition (at1 mp)) (getEndPosition (at0 mn))
            then Assign matchNext
            else if negb (isBefore (getEndPosition (at1 mp)) (getEndPosition (at0 mn)))
            then Assign matchPrev
            else Return (fullSpan mp)
        end in
      match cascade with
      | Return s => s
      | Assign bracketsToSelect =>
          match bracketsToSelect with
          | Some b =>
              if sameArray bracketsToSelect matchPrev then interior b
              else if sameArray bracketsToSelect matchNext then fullSpan b
              else selection
          | None => selection
          end
      end
  end.

(** Lines 229-291: both scans, then the choice. *)
Definition outwardScan (fuel : nat) (selection : Selection) : option Selection :=
  match scanPrev fuel (clone (Selection_getStartPosition selection)) 0%Z with
  | None => None
  | Some prevBracket =>
      match scanNext fuel (clone (Selection_getEndPosition selection)) 0%Z with
      | None => None
      | Some nextBracket => Some (pickOutermost selection prevBracket nextBracket)
      end
  end.

(** Lines 201-291: everything after the direct-neighbor check. *)
Definition subsequentRules (fuel : nat) (selection : Selection) : option Selection :=
  match touchingBrackets selection with
  | Some s => Some s
  | None => outwardScan fuel selection
  end.

(** The callback of [this.editor.getSelections().map(...)], lines 178-292.
    [None] only when a scan loop exhausts the fuel. *)
Definition expandSelection (fuel : nat) (selection : Selection) : option Selection :=
  match directNeighbor selection with
  | Some s => Some s
  | None => subsequentRules fuel selection
  end.

End Expand.

(** The [map] of line 178 over all the selections. *)
Fixpoint expandAll (model : ITextModel) (fuel : nat) (selections : list Selection)
  : option (list Selection) :=
  match selections with
  | [] => Some []
  | selection :: rest =>
      match expandSelection model fuel selection, expandAll model fuel rest with
      | Some s, Some ss => Some (s :: ss)
      | _, _ => None
      end
  end.

(** [ExpandBracketController.run], as the selections of the editor after
    the call: without a model, or with no new selection, nothing is set. *)
Definition run (model : option ITextModel) (fuel : nat) (selections : list Selection)
  : option (list Selection) :=
  match model with
  | None => Some selections
  | Some m =>
      match expandAll m fuel selections with
      | Some newSelections =>
          if 0 <? length newSelections then Some newSelections else Some selections
      | None => None
      end
  end.

(** The brackets of [brackets] still ahead of a leftward scan standing at
    [p], and of a rightward scan standing at [p]. *)
Definition bracketsBefore (brackets : list IFoundBracket) (p : Position)
  : list IFoundBracket :=
  List.filter (fun b => isBefore (getStartPosition (range b)) p) brackets.

Definition bracketsAfter (brackets : list IFoundBracket) (p : Position)
  : list IFoundBracket :=
  List.filter (fun b => isBefore p (getEndPosition (range b))) brackets.

End ExpandBracket.

(* ===================================================================== *)
(** ** A bracket model read off a text *)
(* ===================================================================== *)

(** Modelled from the spec: the bracket oracle ([findPrevBracket],
    [findNextBracket], [matchBracket] of the text model, which is not part
    of the controller's file). Brackets are the single characters
    [( ) [ ] { }]; [findPrevBracket]/[findNextBracket] return the nearest
    bracket token lying before/after the position, [matchBracket] resolves
    a token touching the position against the tokens of its own kind.
    The order of the two ranges of a match is the one the controller
    relies on: the test [matchPrev[0].equalsRange(matchNext[1])] of line
    205 can only hold when the first entry is the bracket at the position
    and the second its partner. *)
Module TextModel.

Import ExpandBracket.

Inductive BracketKind := Paren | Square | Curly.

Definition sameKind (a b : BracketKind) : bool :=
  match a, b with
  | Paren, Paren | Square, Square | Curly, Curly => true
  | _, _ => false
  end.

Record Token := mkToken { tokRange : Range; tokOpen : bool; tokKind : BracketKind }.

Definition classify (c : ascii) : option (BracketKind * bool) :=
  if Ascii.eqb c "("%char then Some (Paren, true)
  else if Ascii.eqb c ")"%char then Some (Paren, false)
  else if Ascii.eqb c "["%char then Some (Square, true)
  else if Ascii.eqb c "]"%char then Some (Square, false)
  else if Ascii.eqb c "{"%char then Some (Curly, true)
  else if Ascii.eqb c "}"%char then Some (Curly, false)
  else None.

Fixpoint tokenizeLine (line col : nat) (s : string) : list Token :=
  match s with
  | EmptyString => []
  | String c s' =>
      match classify c with
      | Some (k, o) =>
          mkToken (mkRange line col line (S col)) o k :: tokenizeLine line (S col) s'
      | None => tokenizeLine line (S col) s'
      end
  end.

Fixpoint tokenizeLines (line : nat) (lines : list string) : list Token :=
  match lines with
  | [] => []
  | l :: lines' => tokenizeLine line 1 l ++ tokenizeLines (S line) lines'
  end.

Definition tokenize (lines : list string) : list Token := tokenizeLines 1 lines.

Definition found (t : Token) : IFoundBracket := mkFoundBracket (tokRange t) (tokOpen t).

Definition endsBefore (p : Position) (t : Token) : bool :=
  isBeforeOrEqual (getEndPosition (tokRange t)) p.

Definition startsAfter (p : Position) (t : Token) : bool :=
  isBeforeOrEqual p (getStartPosition (tokRange t)).

Definition touches (p : Position) (t : Token) : bool :=
  containsPosition (tokRange t) p.

(** The closing partner: first closer of kind [k] at depth 0 in [rest]. *)
Fixpoint closerOf (k : BracketKind) (depth : nat) (rest : list Token) : option Token :=
  match rest with
  | [] => None
  | t :: rest' =>
      if sameKind (tokKind t) k then
        if tokOpen t then closerOf k (S depth) rest'
        else match depth with
             | O => Some t
             | S d => closerOf k d rest'
             end
      else closerOf k depth rest'
  end.

(** The opening partner, [rest] being the preceding tokens, nearest first. *)
Fixpoint openerOf (k : BracketKind) (depth : nat) (rest : list Token) : option Token :=
  match rest with
  | [] => None
  | t :: rest' =>
      if sameKind (tokKind t) k then
        if tokOpen t then
          match depth with
          | O => Some t
          | S d => openerOf k d rest'
          end
        else openerOf k (S depth) rest'
      else openerOf k depth rest'
  end.

(** Identity of the array built by one [matchBracket] call: a new array
    for each call, named after the position queried. *)
Definition arrayAt (p : Position) : nat :=
  (lineNumber p + column p) * (lineNumber p + column p + 1) / 2 + column p.

(** Resolve the token [t], the [i]-th of [toks], for a query at [p]:
    the token itself first, then its partner. *)
Definition resolve (toks : list Token) (p : Position) (i : nat) (t : Token)
  : option RangePair :=
  if tokOpen t then
    match closerOf (tokKind t) 0 (drop (S i) toks) with
    | Some c => Some (mkRangePair (arrayAt p) (tokRange t) (tokRange c))
    | None => None
    end
  else
    match openerOf (tokKind t) 0 (rev (take i toks)) with
    | Some o => Some (mkRangePair (arrayAt p) (tokRange t) (tokRange o))
    | None => None
    end.

Definition startsAt (p : Position) (t : Token) : bool :=
  Position_equals (getStartPosition (tokRange t)) p.

(** The first token selected by [sel] that has a partner. *)
Fixpoint matchFrom (toks : list Token) (p : Position) (sel : Token -> bool)
    (i : nat) (rest : list Token) : option RangePair :=
  match rest with
  | [] => None
  | t :: rest' =>
      if sel t then
        match resolve toks p i t with
        | Some m => Some m
        | None => matchFrom toks p sel (S i) rest'
        end
      else matchFrom toks p sel (S i) rest'
  end.

(** A bracket starting at [p] is tried first, then any bracket touching [p]. *)
Definition matchAt (toks : list Token) (p : Position) : option RangePair :=
  match matchFrom toks p (startsAt p) 0 toks with
  | Some m => Some m
  | None => matchFrom toks p (touches p) 0 toks
  end.

Definition ofTokens (toks : list Token) : ITextModel :=
  mkTextModel
    (fun p => found <$> last (List.filter (endsBefore p) toks))
    (fun p => found <$> head (List.filter (startsAfter p) toks))
    (matchAt toks).

Definition ofText (lines : list string) : ITextModel := ofTokens (tokenize lines).

(** A token covers at least one character. *)
Definition nonEmpty (t : Token) : Prop :=
  isBefore (getStartPosition (tokRange t)) (getEndPosition (tokRange t)) = true.

End TextModel.

(* ===================================================================== *)
(** ** The selection state machine (grow / shrink) *)
(* ===================================================================== *)

Module SmartSelect.

(** Identity of an [ICommonCodeEditor] (compared with [!==]). *)
Abbreviation EditorId := nat.

(** Reference to a [State] object: its index in the store. *)
Abbreviation StateRef := nat.

(** [State.selection] is declared a [Range]; it holds either the
    [Selection] returned by [editor.getSelection()] or a [new Range(...)]. *)
Inductive RangeLike :=
| ASelection (s : Selection)
| ARange (r : Range).

Definition toRange (x : RangeLike) : Range :=
  match x with
  | ASelection s => selectionRange s
  | ARange r => r
  end.

(** Modelled from the spec: what [editor.setSelection] installs, a
    selection keeps its direction and a plain range runs start to end. *)
Definition toSelection (x : RangeLike) : Selection :=
  match x with
  | ASelection s => s
  | ARange r =>
      newSelection (startLineNumber r) (startColumn r) (endLineNumber r) (endColumn r)
  end.

(** [class State] *)
Record State := mkState {
  editor : EditorId;
  next : option StateRef;
  previous : option StateRef;
  selection : RangeLike
}.

Definition withNext (v : option StateRef) (st : State) : State :=
  mkState (editor st) v (previous st) (selection st).

Definition withPrevious (v : option StateRef) (st : State) : State :=
  mkState (editor st) (next st) v (selection st).

(** The module-level variables [state] and [ignoreSelection], the [State]
    objects, each editor's current selection, and the editors on which a
    cursor-position listener of [run] is still hooked (one entry per
    listener). *)
Record World := mkWorld {
  heap : list State;
  state : option StateRef;
  ignoreSelection : bool;
  editorSelection : EditorId -> Selection;
  listeners : list EditorId
}.

Definition setState (v : option StateRef) (w : World) : World :=
  mkWorld (heap w) v (ignoreSelection w) (editorSelection w) (listeners w).

Definition setIgnoreSelection (b : bool) (w : World) : World :=
  mkWorld (heap w) (state w) b (editorSelection w) (listeners w).

Definition select (e : EditorId) (s : Selection) (w : World) : World :=
  mkWorld (heap w) (state w) (ignoreSelection w)
          (fun e' => if e' =? e then s else editorSelection w e')
          (listeners w).

(** How a call completes: normally, or by a thrown exception. *)
Inductive Completion := Normal | Thrown.

(** Lines 116-122: the listeners hooked on editor [e] run. Each one
    returns at once under [ignoreSelection]; otherwise it clears [state]
    and unhooks itself. *)
Definition onDidChangeCursorPosition (e : EditorId) (w : World) : World :=
  if ignoreSelection w then w
  else if existsb (Nat.eqb e) (listeners w)
  then mkWorld (heap w) None (ignoreSelection w) (editorSelection w)
               (List.filter (fun e' => negb (e =? e')) (listeners w))
  else w.

(** The cursor of editor [e] is moved from outside [run]. *)
Definition cursorMoved (e : EditorId) (s : Selection) (w : World) : World :=
  onDidChangeCursorPosition e (select e s w).

(** [new Range(range.startLineNumber, range.startColumn,
               range.endLineNumber, range.endColumn)] on an entry of the
    provider. *)
Definition rangeOf (element : Range) : Range :=
  newRange (startLineNumber element) (startColumn element)
           (endLineNumber element) (endColumn element).

Section Run.

(** [TokenSelectionSupport.getRangesToPosition]: the [range] fields of the
    entries it resolves to; the empty list also stands for a falsy result. *)
Variable getRangesToPosition : EditorId -> Position -> list Range.

(** Whether [editor.setSelection] throws on the given argument. *)
Variable setSelectionThrows : EditorId -> RangeLike -> bool.

(** Modelled from the spec: [editor.setSelection(x)] of the document
    view. It throws, or installs the selection and notifies the
    cursor-position listeners. *)
Definition setSelection (e : EditorId) (x : RangeLike) (w : World)
  : World * Completion :=
  if setSelectionThrows e x then (w, Thrown)
  else (onDidChangeCursorPosition e (select e (toSelection x) w), Normal).

(** Line 89-94: the filter callback. *)
Definition enclosesSelection (sel : Selection) (element : Range) : bool :=
  let range := rangeOf element in
  containsPosition range (Selection_getStartPosition sel)
  && containsPosition range (Selection_getEndPosition sel).

(** Lines 95-105: the [forEach] callback, on the store and [lastState].
    The new object is allocated at the end of the store. *)
Definition addCandidate (e : EditorId)
    (acc : list State * option StateRef) (element : Range)
  : list State * option StateRef :=
  let '(h, lastState) := acc in
  let st := mkState e None None (ARange (rangeOf element)) in
  let r := length h in
  let h1 := h ++ [st] in
  match lastState with
  | Some l => (alter (withPrevious (Some r)) l (alter (withNext (Some l)) r h1), Some r)
  | None => (h1, Some r)
  end.

(** Lines 82-123: the continuation of [getRangesToPosition]. *)
Definition buildChain (e : EditorId) (w : World) : World :=
  let selection := editorSelection w e in
  let elements := getRangesToPosition e (Selection_getStartPosition selection) in
  match elements with
  | [] => w
  | _ =>
      let kept := List.filter (enclosesSelection (editorSelection w e)) elements in
      let '(h, lastState) := fold_left (addCandidate e) kept (heap w, None) in
      let r := length h in
      let editorState := mkState e lastState None (ASelection (editorSelection w e)) in
      let h1 := h ++ [editorState] in
      let h2 :=
        match lastState with
        | Some l => alter (withPrevious (Some r)) l h1
        | None => h1
        end in
      mkWorld h2 (Some r) (ignoreSelection w) (editorSelection w) (e :: listeners w)
  end.

(** Lines 137-142: [ignoreSelection = true; try { setSelection } finally
    { ignoreSelection = false }]. *)
Definition applySelection (e : EditorId) (x : RangeLike) (w : World)
  : World * Completion :=
  let '(w', c) := setSelection e x (setIgnoreSelection true w) in
  (setIgnoreSelection false w', c).

(** Lines 73-78: forget a chain that belongs to another editor. *)
Definition forgetStale (e : EditorId) (w : World) : World :=
  match state w with
  | Some r =>
      match heap w !! r with
      | Some st => if editor st =? e then w else setState None w
      | None => w
      end
  | None => w
  end.

(** Line 132: [forward ? state.next : state.previous]. *)
Definition target (forward : bool) (w : World) (r : StateRef) : option StateRef :=
  match heap w !! r with
  | Some st => if forward then next st else previous st
  | None => None
  end.

(** Lines 126-145: the continuation that moves along the chain. *)
Definition move (e : EditorId) (forward : bool) (w : World) : World * Completion :=
  match state w with
  | None => (w, Normal)
  | Some r =>
      let w' := setState (target forward w r) w in
      match state w' with
      | None => (w', Normal)
      | Some t =>
          match heap w' !! t with
          | Some st => applySelection e (selection st) w'
          | None => (w', Normal)
          end
      end
  end.

(** Lines 73-124: after the stale chain is forgotten, a chain is built
    if there is none. *)
Definition prepare (e : EditorId) (w : World) : World :=
  let w1 := forgetStale e w in
  match state w1 with
  | None => buildChain e w1
  | Some _ => w1
  end.

(** [SmartSelectController.run(forward)] of the controller of editor [e]. *)
Definition run (e : EditorId) (forward : bool) (w : World) : World * Completion :=
  move e forward (prepare e w).

(** [n] successive calls, stopping at the first exception. *)
Fixpoint runs (e : EditorId) (forward : bool) (n : nat) (w : World)
  : World * Completion :=
  match n with
  | O => (w, Normal)
  | S n' =>
      match run e forward w with
      | (w', Normal) => runs e forward n' w'
      | (w', Thrown) => (w', Thrown)
      end
  end.

(** The worlds met in use: from no chain at all, through calls of [run]
    that complete normally and cursor moves from outside. *)
Inductive reachable : World -> Prop :=
| reach_init sel : reachable (mkWorld [] None false sel [])
| reach_run w e forward :
    reachable w -> snd (run e forward w) = Normal ->
    reachable (fst (run e forward w))
| reach_moved w e s : reachable w -> reachable (cursorMoved e s w).

(** The selections of the chain read from reference [r] outward along
    [next], at most [fuel] nodes. *)
Fixpoint chainOutward (fuel : nat) (h : list State) (r : option StateRef)
  : list RangeLike :=
  match fuel, r with
  | S fuel', Some i =>
      match h !! i with
      | Some st => selection st :: chainOutward fuel' h (next st)
      | None => []
      end
  | _, _ => []
  end.

(** The chain of the current node of [w]. *)
Definition currentChain (w : World) : list RangeLike :=
  chainOutward (length (heap w)) (heap w) (state w).

End Run.

(** [Chain h r l]: following [next] from [r] in the store [h] visits
    nodes whose selections are [l], and ends on a null [next]. *)
Inductive Chain (h : list State) : option StateRef -> list RangeLike -> Prop :=
| Chain_nil : Chain h None []
| Chain_cons r st l :
    h !! r = Some st -> Chain h (next st) l -> Chain h (Some r) (selection st :: l).

(** The links of the store are symmetric and stay within one editor. *)
Definition linked (h : list State) : Prop :=
  forall a sa, h !! a = Some sa ->
    (forall b, next sa = Some b ->
       exists sb, h !! b = Some sb /\ previous sb = Some a /\ editor sb = editor sa)
    /\ (forall b, previous sa = Some b ->
       exists sb, h !! b = Some sb /\ next sb = Some a /\ editor sb = editor sa).

(** [lastState], if set, is a node of editor [e] without [previous]. *)
Definition openEnd (e : EditorId) (h : list State) (lastState : option StateRef) : Prop :=
  forall r, lastState = Some r ->
    exists st, h !! r = Some st /\ previous st = None /\ editor st = e.

(** The current node, if any, holds the selection its editor shows, and
    its editor still carries a listener. *)
Definition synced (w : World) : Prop :=
  forall r, state w = Some r ->
    exists st, heap w !! r = Some st
      /\ editorSelection w (editor st) = toSelection (selection st)
      /\ In (editor st) (listeners w).

Definition consistent (w : World) : Prop :=
  linked (heap w) /\ ignoreSelection w = false /\ synced w.

(** Each selection of the list is contained in the one after it. *)
Definition nestedOutward (l : list RangeLike) : Prop :=
  forall i x y, l !! i = Some x -> l !! (S i) = Some y ->
    containsRange (toRange y) (toRange x) = true.

(** The provider's entries come outermost first: each contains every
    later one. *)
Definition outermostFirst (elements : list Range) : Prop :=
  StronglySorted (fun x y => containsRange (rangeOf x) (rangeOf y) = true) elements.

End SmartSelect.

(* ===================================================================== *)
(** ** Sample documents and providers *)
(* ===================================================================== *)

Module Samples.

Import ExpandBracket.

Local Open Scope string_scope.

(** The line [(abc)]. *)
Definition abc : ITextModel := TextModel.ofText ["(abc)"].

(** The line [( x [ )]: the square bracket is never closed. *)
Definition strayOpener : ITextModel := TextModel.ofText ["( x [ )"].

(** The line [(] x )]: a closing square bracket without an opener. *)
Definition strayCloser : ITextModel := TextModel.ofText ["(] x )"].

(** The line [([) x (])]: parentheses and square brackets interleaved. *)
Definition interleaved : ITextModel := TextModel.ofText ["([) x (])"].

(** The line [(a (b) c)]. *)
Definition nested : ITextModel := TextModel.ofText ["(a (b) c)"].

(** The line [( ]x )]: the caret sits right after the stray [ ] ]. *)
Definition strayNeighbor : ITextModel := TextModel.ofText ["( ]x )"].

(** The line [( x [)]]: the parentheses close inside the square brackets. *)
Definition crossing : ITextModel := TextModel.ofText ["( x [)]"].

(** The line [abc]: no bracket at all. *)
Definition plain : ITextModel := TextModel.ofText ["abc"].

(** The line [((a) b]: the outer parenthesis is never closed. *)
Definition unterminated : list TextModel.Token := TextModel.tokenize ["((a) b"].

(** The line [begin x end] with the word brackets [begin] and [end] at
    columns 1-6 and 9-12. [matchBracket] lists first the bracket the
    position touches and then its partner, as in [TextModel]. *)
Definition beginEnd : ITextModel :=
  let b := mkRange 1 1 1 6 in
  let e := mkRange 1 9 1 12 in
  mkTextModel
    (fun p => if isBeforeOrEqual (getEndPosition e) p then Some (mkFoundBracket e false)
              else if isBeforeOrEqual (getEndPosition b) p then Some (mkFoundBracket b true)
              else None)
    (fun p => if isBeforeOrEqual p (getStartPosition b) then Some (mkFoundBracket b true)
              else if isBeforeOrEqual p (getStartPosition e) then Some (mkFoundBracket e false)
              else None)
    (fun p => if containsPosition b p then Some (mkRangePair (TextModel.arrayAt p) b e)
              else if containsPosition e p then Some (mkRangePair (TextModel.arrayAt p) e b)
              else None).

(** A caret. *)
Definition caret (line col : nat) : Selection := newSelection line col line col.

Import SmartSelect.

(** A provider answering with a file, a block and a statement, outermost
    first, whatever the position. *)
Definition outermostFirstProvider : EditorId -> Position -> list Range :=
  fun _ _ => [mkRange 1 1 9 1; mkRange 2 1 4 10; mkRange 3 2 3 8].

(** The same three ranges ordered from innermost to outermost. *)
Definition innermostFirstProvider : EditorId -> Position -> list Range :=
  fun _ _ => [mkRange 3 2 3 8; mkRange 2 1 4 10; mkRange 1 1 9 1].

(** Two overlapping regions around 3:4-3:6, neither inside the other. *)
Definition overlappingProvider : EditorId -> Position -> list Range :=
  fun _ _ => [mkRange 1 1 3 9; mkRange 3 1 9 1].

Definition neverThrows : EditorId -> RangeLike -> bool := fun _ _ => false.

Definition alwaysThrows : EditorId -> RangeLike -> bool := fun _ _ => true.

(** No chain yet; every editor has the selection 3:4-3:6. *)
Definition fresh : World :=
  mkWorld [] None false (fun _ => newSelection 3 4 3 6) [].

(** A provider that never answers. *)
Definition silentProvider : EditorId -> Position -> list Range := fun _ _ => [].

(** A provider answering with a region that lies after 3:4-3:6. *)
Definition outsideProvider : EditorId -> Position -> list Range :=
  fun _ _ => [mkRange 5 1 6 1].

(** Editor 0 after a grow during which [setSelection] threw: the chain
    stands on the statement, the editor still shows 3:4-3:6. *)
Definition afterThrow : World :=
  fst (run outermostFirstProvider alwaysThrows 0 true fresh).

(** Editor 0 after one grow: on the statement 3:2-3:8. *)
Definition grown : World :=
  fst (run outermostFirstProvider neverThrows 0 true fresh).

(** Editor 0 after one grow and one shrink: back on the innermost node. *)
Definition backHome : World :=
  fst (run outermostFirstProvider neverThrows 0 false
         (fst (run outermostFirstProvider neverThrows 0 true fresh))).

End Samples.

(* ===================================================================== *)
(** * Properties *)
(* ===================================================================== *)

(** ** The position order *)

Lemma isBefore_spec a b :
  isBefore a b = true <->
  lineNumber a < lineNumber b \/ (lineNumber a = lineNumber b /\ column a < column b).
Proof.
  unfold isBefore.
  destruct (Nat.ltb_spec (lineNumber a) (lineNumber b)); [intuition lia|].
  destruct (Nat.ltb_spec (lineNumber b) (lineNumber a)); [intuition (try discriminate; lia)|].
  destruct (Nat.ltb_spec (column a) (column b)); intuition (try discriminate; lia).
Qed.

Lemma isBeforeOrEqual_spec a b :
  isBeforeOrEqual a b = true <->
  lineNumber a < lineNumber b \/ (lineNumber a = lineNumber b /\ column a <= column b).
Proof.
  unfold isBeforeOrEqual.
  destruct (Nat.ltb_spec (lineNumber a) (lineNumber b)); [intuition lia|].
  destruct (Nat.ltb_spec (lineNumber b) (lineNumber a)); [intuition (try discriminate; lia)|].
  destruct (Nat.leb_spec (column a) (column b)); intuition (try discriminate; lia).
Qed.

Lemma Position_equals_spec a b : Position_equals a b = true <-> a = b.
Proof.
  unfold Position_equals. rewrite andb_true_iff, !Nat.eqb_eq.
  destruct a, b; simpl. split; [intros [-> ->]; reflexivity | intros [= -> ->]; auto].
Qed.

Lemma isBefore_irrefl a : isBefore a a = false.
Proof.
  destruct (isBefore a a) eqn:E; [|reflexivity].
  apply isBefore_spec in E. lia.
Qed.

Lemma isBefore_trans a b c :
  isBefore a b = true -> isBefore b c = true -> isBefore a c = true.
Proof. rewrite !isBefore_spec. lia. Qed.

Lemma isBefore_le_trans a b c :
  isBefore a b = true -> isBeforeOrEqual b c = true -> isBefore a c = true.
Proof. rewrite !isBefore_spec, isBeforeOrEqual_spec. lia. Qed.

(* ===================================================================== *)
(** ** Bracket expansion *)
(* ===================================================================== *)

Module ExpandBracketFacts.

Import ExpandBracket Samples.

Section Rules.

Variable model : ITextModel.

Lemma expandSelection_neighbor fuel sel s :
  directNeighbor model sel = Some s -> expandSelection model fuel sel = Some s.
Proof. unfold expandSelection. intros ->. reflexivity. Qed.

Lemma expandSelection_subsequent fuel sel :
  directNeighbor model sel = None ->
  expandSelection model fuel sel = subsequentRules model fuel sel.
Proof. unfold expandSelection. intros ->. reflexivity. Qed.

Lemma expandSelection_scan fuel sel :
  directNeighbor model sel = None ->
  touchingBrackets model sel = None ->
  expandSelection model fuel sel = outwardScan model fuel sel.
Proof.
  intros Hn Ht. rewrite expandSelection_subsequent by assumption.
  unfold subsequentRules. rewrite Ht. reflexivity.
Qed.

(** Without a previous bracket ending at the selection start the first
    rule yields nothing. *)
Lemma directNeighbor_not_adjacent sel :
  (forall b, findPrevBracket model (Selection_getStartPosition sel) = Some b ->
             Position_equals (getEndPosition (range b)) (Selection_getStartPosition sel) = false) ->
  directNeighbor model sel = None.
Proof.
  intros H. unfold directNeighbor.
  destruct (findPrevBracket model _) as [b|] eqn:E; [|reflexivity].
  rewrite (H b eq_refl). reflexivity.
Qed.

(** C6 (as amended). When the nearest previous bracket ends exactly at the
    selection start and resolves to a pair, the result runs from the
    start of the resolution's first range to the end of its second range
    if that bracket is an opening one (the pair's full span), and from
    the end of its first range to the start of its second range if it is
    a closing one (with the adjacent bracket listed first: the pair's
    full span in swapped orientation). *)
Theorem direct_neighbor_adjacent fuel sel b m :
  findPrevBracket model (Selection_getStartPosition sel) = Some b ->
  Position_equals (getEndPosition (range b)) (Selection_getStartPosition sel) = true ->
  matchBracket model (getStartPosition (range b)) = Some m ->
  expandSelection model fuel sel = Some (if isOpen b then fullSpan m else interior m).
Proof.
  intros Hprev Hadj Hm. apply expandSelection_neighbor.
  unfold directNeighbor. rewrite Hprev, Hadj, Hm.
  destruct (isOpen b); reflexivity.
Qed.

(** C7 (as amended). When the direct-neighbor rule does not apply,
    [matchBracket] resolves at both ends of the selection, the first range
    of the resolution at the start equals the second range of the
    resolution at the end, and the selection does not start where that
    first range starts, the result is the full span of the resolution at
    the start. *)
Theorem inside_pair_full_span fuel sel mp mn :
  directNeighbor model sel = None ->
  matchBracket model (Selection_getStartPosition sel) = Some mp ->
  matchBracket model (Selection_getEndPosition sel) = Some mn ->
  equalsRange (at0 mp) (at1 mn) = true ->
  Position_equals (getStartPosition (at0 mp)) (Selection_getStartPosition sel) = false ->
  expandSelection model fuel sel = Some (fullSpan mp).
Proof.
  intros Hn Hp Hx Heq Hstart.
  rewrite expandSelection_subsequent by assumption.
  unfold subsequentRules, touchingBrackets.
  rewrite Hp, Hx, Heq, Hstart. reflexivity.
Qed.

(** C10. When the nearest previous bracket ends exactly at the selection
    start but [matchBracket] does not resolve it, the direct-neighbor rule
    yields nothing and the result is that of the subsequent rules, the
    same computation that runs when no bracket is adjacent. *)
Theorem unmatched_neighbor_falls_through fuel sel b :
  findPrevBracket model (Selection_getStartPosition sel) = Some b ->
  Position_equals (getEndPosition (range b)) (Selection_getStartPosition sel) = true ->
  matchBracket model (getStartPosition (range b)) = None ->
  directNeighbor model sel = None
  /\ expandSelection model fuel sel = subsequentRules model fuel sel.
Proof.
  intros Hprev Hadj Hm.
  assert (Hn : directNeighbor model sel = None).
  { unfold directNeighbor. rewrite Hprev, Hadj, Hm. reflexivity. }
  split; [exact Hn | apply expandSelection_subsequent, Hn].
Qed.

(** C3 (as amended). When exactly one scan ends on a candidate and the
    candidate resolves, the result runs from the end of the resolution's
    first range to the start of its second range if the left scan found
    it ([left = true]), and from the start of its first range to the end
    of its second range if the right scan found it. *)
Theorem one_sided_candidate fuel sel (left : bool) b m :
  directNeighbor model sel = None ->
  touchingBrackets model sel = None ->
  scanPrev model fuel (clone (Selection_getStartPosition sel)) 0
    = Some (if left then Some b else None) ->
  scanNext model fuel (clone (Selection_getEndPosition sel)) 0
    = Some (if left then None else Some b) ->
  matchBracket model (getStartPosition (range b)) = Some m ->
  expandSelection model fuel sel = Some (if left then interior m else fullSpan m).
Proof.
  intros Hn Ht Hp Hx Hm.
  rewrite expandSelection_scan by assumption.
  unfold outwardScan. rewrite Hp, Hx.
  destruct left; unfold pickOutermost; rewrite Hm; simpl;
    rewrite Nat.eqb_refl; reflexivity.
Qed.

(** C1 (as amended). When both scans end on a candidate and both
    candidates resolve (to two distinct arrays), the right resolution is
    chosen if the end of the left resolution's second range lies strictly
    before the end of the right resolution's first range, and the left
    one otherwise; the result runs from the start of the right
    resolution's first range to the end of its second range, or from the
    end of the left resolution's first range to the start of its second
    range (with the queried bracket listed first: the chosen pair's
    interior, backwards for the right pair). *)
Theorem both_sides_candidates fuel sel pb nb mp mn :
  directNeighbor model sel = None ->
  touchingBrackets model sel = None ->
  scanPrev model fuel (clone (Selection_getStartPosition sel)) 0 = Some (Some pb) ->
  scanNext model fuel (clone (Selection_getEndPosition sel)) 0 = Some (Some nb) ->
  matchBracket model (getStartPosition (range pb)) = Some mp ->
  matchBracket model (getStartPosition (range nb)) = Some mn ->
  ident mp <> ident mn ->
  expandSelection model fuel sel =
    Some (if isBefore (getEndPosition (at1 mp)) (getEndPosition (at0 mn))
          then fullSpan mn else interior mp).
Proof.
  intros Hn Ht Hp Hx Hmp Hmn Hid.
  rewrite expandSelection_scan by assumption.
  unfold outwardScan. rewrite Hp, Hx.
  unfold pickOutermost. rewrite Hmp, Hmn.
  destruct (isBefore _ _); simpl.
  - apply Nat.eqb_neq in Hid. rewrite Nat.eqb_sym, Hid, Nat.eqb_refl. reflexivity.
  - rewrite Nat.eqb_refl. reflexivity.
Qed.

End Rules.

(** One new selection per selection, in the same order. *)
Lemma expandAll_lookup model fuel : forall selections newSelections,
  expandAll model fuel selections = Some newSelections ->
  length newSelections = length selections
  /\ forall i sel, selections !! i = Some sel ->
       newSelections !! i = expandSelection model fuel sel.
Proof.
  induction selections as [|s rest IH]; intros out H; simpl in H.
  - injection H as <-. split; [reflexivity|]. intros i sel Hi. destruct i; discriminate.
  - destruct (expandSelection model fuel s) as [s'|] eqn:Es; [|discriminate].
    destruct (expandAll model fuel rest) as [ss|] eqn:Er; [|discriminate].
    injection H as <-. destruct (IH ss eq_refl) as [Hlen Hlook].
    split; [simpl; congruence|].
    intros [|i] sel Hi; simpl in *.
    + injection Hi as <-. congruence.
    + apply Hlook, Hi.
Qed.

(** *** Termination of the two scans *)

Lemma filter_length_le {A} (f g : A -> bool) (l : list A) :
  (forall x, f x = true -> g x = true) ->
  length (List.filter f l) <= length (List.filter g l).
Proof.
  intros Hfg. induction l as [|x l IH]; simpl; [lia|].
  destruct (f x) eqn:Ef.
  - rewrite (Hfg x Ef). simpl. lia.
  - destruct (g x); simpl; lia.
Qed.

Lemma filter_length_lt {A} (f g : A -> bool) (l : list A) (b : A) :
  (forall x, f x = true -> g x = true) ->
  In b l -> f b = false -> g b = true ->
  length (List.filter f l) < length (List.filter g l).
Proof.
  intros Hfg Hin Hf Hg. induction l as [|x l IH]; simpl; [destruct Hin|].
  destruct Hin as [->|Hin].
  - rewrite Hf, Hg. simpl.
    pose proof (filter_length_le f g l Hfg). lia.
  - specialize (IH Hin). destruct (f x) eqn:Ef.
    + rewrite (Hfg x Ef). simpl. lia.
    + destruct (g x); simpl; lia.
Qed.

(** More fuel does not change the outcome of a scan that has exited. *)
Lemma scanPrev_more_fuel model fuel : forall p c r fuel',
  scanPrev model fuel p c = Some r -> fuel <= fuel' ->
  scanPrev model fuel' p c = Some r.
Proof.
  induction fuel as [|fuel IH]; intros p c r fuel' H Hle; [discriminate|].
  destruct fuel' as [|fuel']; [lia|]. simpl in *.
  destruct (findPrevBracket model p) as [b|]; [|exact H].
  destruct (0 <=? _)%Z; [|exact H]. apply (IH _ _ _ _ H). lia.
Qed.

Lemma scanNext_more_fuel model fuel : forall p c r fuel',
  scanNext model fuel p c = Some r -> fuel <= fuel' ->
  scanNext model fuel' p c = Some r.
Proof.
  induction fuel as [|fuel IH]; intros p c r fuel' H Hle; [discriminate|].
  destruct fuel' as [|fuel']; [lia|]. simpl in *.
  destruct (findNextBracket model p) as [b|]; [|exact H].
  destruct (0 <=? _)%Z; [|exact H]. apply (IH _ _ _ _ H). lia.
Qed.

Lemma expandSelection_more_fuel model fuel fuel' sel s :
  expandSelection model fuel sel = Some s -> fuel <= fuel' ->
  expandSelection model fuel' sel = Some s.
Proof.
  unfold expandSelection, subsequentRules, outwardScan. intros H Hle.
  destruct (directNeighbor model sel); [exact H|].
  destruct (touchingBrackets model sel); [exact H|].
  destruct (scanPrev model fuel _ _) as [r1|] eqn:E1; [|discriminate].
  destruct (scanNext model fuel _ _) as [r2|] eqn:E2; [|discriminate].
  rewrite (scanPrev_more_fuel _ _ _ _ _ _ E1 Hle), (scanNext_more_fuel _ _ _ _ _ _ E2 Hle).
  exact H.
Qed.

(** A scan exits where no bracket is found, or on the bracket that
    makes the counter negative. *)
Lemma scanPrev_exit model fuel : forall p c r,
  scanPrev model fuel p c = Some r ->
  exists q c', findPrevBracket model q = r
    /\ match r with
       | None => True
       | Some b => ((if negb (isOpen b) then c' + 1 else c' - 1) < 0)%Z
       end.
Proof.
  induction fuel as [|fuel IH]; intros p c r H; [discriminate|]. simpl in H.
  destruct (findPrevBracket model p) as [b|] eqn:E.
  - destruct (Z.leb_spec 0 (if negb (isOpen b) then c + 1 else c - 1)%Z) as [Hge|Hlt].
    + eapply IH; eauto.
    + injection H as <-. exists p, c. split; [exact E | exact Hlt].
  - injection H as <-. exists p, c. split; [exact E | exact I].
Qed.

Lemma scanNext_exit model fuel : forall p c r,
  scanNext model fuel p c = Some r ->
  exists q c', findNextBracket model q = r
    /\ match r with
       | None => True
       | Some b => ((if isOpen b then c' + 1 else c' - 1) < 0)%Z
       end.
Proof.
  induction fuel as [|fuel IH]; intros p c r H; [discriminate|]. simpl in H.
  destruct (findNextBracket model p) as [b|] eqn:E.
  - destruct (Z.leb_spec 0 (if isOpen b then c + 1 else c - 1)%Z) as [Hge|Hlt].
    + eapply IH; eauto.
    + injection H as <-. exists p, c. split; [exact E | exact Hlt].
  - injection H as <-. exists p, c. split; [exact E | exact I].
Qed.

Section Termination.

Variable model : ITextModel.
Variable brackets : list IFoundBracket.

Hypothesis prev_strict : forall p b,
  findPrevBracket model p = Some b ->
  In b brackets /\ isBefore (getStartPosition (range b)) p = true.

Hypothesis next_strict : forall p b,
  findNextBracket model p = Some b ->
  In b brackets /\ isBefore p (getEndPosition (range b)) = true.

(** One iteration of the leftward scan leaves fewer brackets ahead. *)
Lemma prev_advances p b :
  findPrevBracket model p = Some b ->
  length (bracketsBefore brackets (getStartPosition (range b)))
  < length (bracketsBefore brackets p).
Proof.
  intros H. destruct (prev_strict _ _ H) as [Hin Hlt].
  unfold bracketsBefore. apply filter_length_lt with (b := b); auto.
  - intros x Hx. eapply isBefore_trans; eauto.
  - apply isBefore_irrefl.
Qed.

Lemma next_advances p b :
  findNextBracket model p = Some b ->
  length (bracketsAfter brackets (getEndPosition (range b)))
  < length (bracketsAfter brackets p).
Proof.
  intros H. destruct (next_strict _ _ H) as [Hin Hlt].
  unfold bracketsAfter. apply filter_length_lt with (b := b); auto.
  - intros x Hx. eapply isBefore_trans; eauto.
  - apply isBefore_irrefl.
Qed.

Lemma scanPrev_returns fuel : forall p c,
  length (bracketsBefore brackets p) < fuel ->
  exists r, scanPrev model fuel p c = Some r.
Proof.
  induction fuel as [|fuel IH]; intros p c Hlt; [lia|].
  simpl. destruct (findPrevBracket model p) as [b|] eqn:E; [|eauto].
  destruct (0 <=? _)%Z; [|eauto].
  apply IH. pose proof (prev_advances _ _ E). lia.
Qed.

Lemma scanNext_returns fuel : forall p c,
  length (bracketsAfter brackets p) < fuel ->
  exists r, scanNext model fuel p c = Some r.
Proof.
  induction fuel as [|fuel IH]; intros p c Hlt; [lia|].
  simpl. destruct (findNextBracket model p) as [b|] eqn:E; [|eauto].
  destruct (0 <=? _)%Z; [|eauto].
  apply IH. pose proof (next_advances _ _ E). lia.
Qed.

Lemma bracketsBefore_length p : length (bracketsBefore brackets p) <= length brackets.
Proof. unfold bracketsBefore. apply List.filter_length_le. Qed.

Lemma bracketsAfter_length p : length (bracketsAfter brackets p) <= length brackets.
Proof. unfold bracketsAfter. apply List.filter_length_le. Qed.

(** C9. If every bracket returned by [findPrevBracket] starts strictly
    before the queried position, every bracket returned by
    [findNextBracket] ends strictly after it, and the document has
    finitely many brackets, then each iteration of a scan leaves strictly
    fewer brackets ahead of it, both loops exit within one iteration per
    bracket plus one (on a missing bracket or a negative counter), and
    the expansion of any selection returns, with the same result however
    much more fuel is given. *)
Theorem scans_terminate fuel :
  length brackets < fuel ->
  (forall p b, findPrevBracket model p = Some b ->
     length (bracketsBefore brackets (getStartPosition (range b)))
     < length (bracketsBefore brackets p))
  /\ (forall p b, findNextBracket model p = Some b ->
     length (bracketsAfter brackets (getEndPosition (range b)))
     < length (bracketsAfter brackets p))
  /\ (forall p c, exists r q c',
        scanPrev model fuel p c = Some r
        /\ findPrevBracket model q = r
        /\ match r with
           | None => True
           | Some b => ((if negb (isOpen b) then c' + 1 else c' - 1) < 0)%Z
           end)
  /\ (forall p c, exists r q c',
        scanNext model fuel p c = Some r
        /\ findNextBracket model q = r
        /\ match r with
           | None => True
           | Some b => ((if isOpen b then c' + 1 else c' - 1) < 0)%Z
           end)
  /\ (forall sel, exists s,
        expandSelection model fuel sel = Some s
        /\ forall fuel', fuel <= fuel' -> expandSelection model fuel' sel = Some s).
Proof.
  intros Hfuel.
  assert (Hp : forall p c, exists r, scanPrev model fuel p c = Some r).
  { intros p c. apply scanPrev_returns. pose proof (bracketsBefore_length p). lia. }
  assert (Hn : forall p c, exists r, scanNext model fuel p c = Some r).
  { intros p c. apply scanNext_returns. pose proof (bracketsAfter_length p). lia. }
  split; [exact prev_advances|]. split; [exact next_advances|].
  split.
  { intros p c. destruct (Hp p c) as [r Hr].
    destruct (scanPrev_exit model fuel p c r Hr) as (q & c' & Hq & Hc). eauto 6. }
  split.
  { intros p c. destruct (Hn p c) as [r Hr].
    destruct (scanNext_exit model fuel p c r Hr) as (q & c' & Hq & Hc). eauto 6. }
  intros sel.
  assert (Hs : exists s, expandSelection model fuel sel = Some s).
  { unfold expandSelection.
    destruct (directNeighbor model sel); [eauto|].
    unfold subsequentRules. destruct (touchingBrackets model sel); [eauto|].
    unfold outwardScan.
    destruct (Hp (clone (Selection_getStartPosition sel)) 0%Z) as [r1 ->].
    destruct (Hn (clone (Selection_getEndPosition sel)) 0%Z) as [r2 ->].
    eauto. }
  destruct Hs as [s Hs]. exists s. split; [exact Hs|].
  intros fuel' Hle. eapply expandSelection_more_fuel; eauto.
Qed.

End Termination.

(** The two ways a scan loop exits. *)
Lemma scanPrev_no_bracket model fuel p c :
  findPrevBracket model p = None -> scanPrev model (S fuel) p c = Some None.
Proof. simpl. intros ->. reflexivity. Qed.

Lemma scanPrev_negative model fuel p c b :
  findPrevBracket model p = Some b ->
  ((if negb (isOpen b) then c + 1 else c - 1) < 0)%Z ->
  scanPrev model (S fuel) p c = Some (Some b).
Proof.
  simpl. intros -> Hneg.
  destruct (Z.leb_spec 0 (if negb (isOpen b) then c + 1 else c - 1)%Z); [lia|reflexivity].
Qed.

Lemma scanNext_no_bracket model fuel p c :
  findNextBracket model p = None -> scanNext model (S fuel) p c = Some None.
Proof. simpl. intros ->. reflexivity. Qed.

Lemma scanNext_negative model fuel p c b :
  findNextBracket model p = Some b ->
  ((if isOpen b then c + 1 else c - 1) < 0)%Z ->
  scanNext model (S fuel) p c = Some (Some b).
Proof.
  simpl. intros -> Hneg.
  destruct (Z.leb_spec 0 (if isOpen b then c + 1 else c - 1)%Z); [lia|reflexivity].
Qed.

(** *** The text model meets the assumptions of the scans *)

Lemma ofTokens_prev toks p b :
  Forall TextModel.nonEmpty toks ->
  findPrevBracket (TextModel.ofTokens toks) p = Some b ->
  In b (map TextModel.found toks)
  /\ isBefore (getStartPosition (range b)) p = true.
Proof.
  intros Hne. simpl.
  destruct (last _) as [t|] eqn:E; simpl; [|discriminate].
  intros [= <-].
  apply last_Some in E as [l' E].
  assert (Hin : In t (List.filter (TextModel.endsBefore p) toks)).
  { rewrite E. apply in_or_app. right. left. reflexivity. }
  apply filter_In in Hin as [Hin Hend].
  split; [apply in_map, Hin|].
  rewrite Forall_forall in Hne. apply list_elem_of_In in Hin.
  eapply isBefore_le_trans; [apply (Hne t Hin)|exact Hend].
Qed.

Lemma ofTokens_next toks p b :
  Forall TextModel.nonEmpty toks ->
  findNextBracket (TextModel.ofTokens toks) p = Some b ->
  In b (map TextModel.found toks)
  /\ isBefore p (getEndPosition (range b)) = true.
Proof.
  intros Hne. simpl.
  destruct (head _) as [t|] eqn:E; simpl; [|discriminate].
  intros [= <-].
  apply head_Some in E as [l' E].
  assert (Hin : In t (List.filter (TextModel.startsAfter p) toks)).
  { rewrite E. left. reflexivity. }
  apply filter_In in Hin as [Hin Hstart].
  split; [apply in_map, Hin|].
  rewrite Forall_forall in Hne. apply list_elem_of_In in Hin.
  unfold TextModel.startsAfter in Hstart. specialize (Hne t Hin). unfold TextModel.nonEmpty in Hne.
  simpl. apply isBefore_spec. apply isBefore_spec in Hne.
  apply isBeforeOrEqual_spec in Hstart. lia.
Qed.

Lemma unterminated_nonEmpty : Forall TextModel.nonEmpty unterminated.
Proof. repeat constructor. Qed.

(** *** The rules on sample documents *)

(** On [(abc)]: the caret right after [(] selects [(abc)], the caret right
    after [)] selects [(abc)] backwards. The caret left of [)] is not
    adjacent to a previous bracket: the later rules select [abc]
    backwards. *)
Lemma direct_neighbor_adjacent_witness :
  (findPrevBracket abc (Selection_getStartPosition (caret 1 2))
     = Some (mkFoundBracket (mkRange 1 1 1 2) true)
   /\ matchBracket abc (mkPosition 1 1)
     = Some (mkRangePair 4 (mkRange 1 1 1 2) (mkRange 1 5 1 6))
   /\ expandSelection abc 0 (caret 1 2) = Some (newSelection 1 1 1 6))
  /\ (findPrevBracket abc (Selection_getStartPosition (caret 1 6))
        = Some (mkFoundBracket (mkRange 1 5 1 6) false)
      /\ matchBracket abc (mkPosition 1 5)
        = Some (mkRangePair 26 (mkRange 1 5 1 6) (mkRange 1 1 1 2))
      /\ expandSelection abc 0 (caret 1 6) = Some (newSelection 1 6 1 1))
  /\ (directNeighbor abc (caret 1 5) = None
      /\ expandSelection abc 0 (caret 1 5) = Some (newSelection 1 5 1 2)).
Proof.
  split; [|split]; [| |split; reflexivity];
    (split; [reflexivity | split; [reflexivity|]]).
  - apply (direct_neighbor_adjacent abc 0 (caret 1 2)
             (mkFoundBracket (mkRange 1 1 1 2) true)
             (mkRangePair 4 (mkRange 1 1 1 2) (mkRange 1 5 1 6))); reflexivity.
  - apply (direct_neighbor_adjacent abc 0 (caret 1 6)
             (mkFoundBracket (mkRange 1 5 1 6) false)
             (mkRangePair 26 (mkRange 1 5 1 6) (mkRange 1 1 1 2))); reflexivity.
Defined.

(** C6 as stated: on [(abc)] with the caret right after [)], the nearest
    previous bracket is a closing one, ends at the caret and resolves,
    yet the selection returned covers 1:1-1:6, the whole [(abc)], and
    not the interior 1:2-1:5. *)
Lemma closing_neighbor_counterexample :
  ~ (forall b m,
       findPrevBracket abc (Selection_getStartPosition (caret 1 6)) = Some b ->
       Position_equals (getEndPosition (range b))
                       (Selection_getStartPosition (caret 1 6)) = true ->
       matchBracket abc (getStartPosition (range b)) = Some m ->
       isOpen b = false ->
       option_map selectionRange (expandSelection abc 8 (caret 1 6))
       = Some (mkRange 1 2 1 5)).
Proof.
  intros H.
  specialize (H (mkFoundBracket (mkRange 1 5 1 6) false)
                (mkRangePair 26 (mkRange 1 5 1 6) (mkRange 1 1 1 2))
                eq_refl eq_refl eq_refl eq_refl).
  discriminate H.
Qed.

(** On [begin x end], from inside [begin] to inside [end]. *)
Lemma inside_pair_full_span_witness :
  directNeighbor beginEnd (newSelection 1 3 1 10) = None
  /\ matchBracket beginEnd (mkPosition 1 3)
     = Some (mkRangePair 13 (mkRange 1 1 1 6) (mkRange 1 9 1 12))
  /\ matchBracket beginEnd (mkPosition 1 10)
     = Some (mkRangePair 76 (mkRange 1 9 1 12) (mkRange 1 1 1 6))
  /\ expandSelection beginEnd 0 (newSelection 1 3 1 10) = Some (newSelection 1 1 1 12).
Proof.
  split; [reflexivity|]. split; [reflexivity|]. split; [reflexivity|].
  apply (inside_pair_full_span beginEnd 0 (newSelection 1 3 1 10)
           (mkRangePair 13 (mkRange 1 1 1 6) (mkRange 1 9 1 12))
           (mkRangePair 76 (mkRange 1 9 1 12) (mkRange 1 1 1 6))); reflexivity.
Defined.

(** C7 as stated: on [(abc)] with [)] selected, [matchBracket] resolves at
    both ends to the same two ranges (hence the same closing side) and
    the selection does not start at the interior start 1:2, yet the
    selection returned covers the interior 1:2-1:5, not the full span
    1:1-1:6. *)
Lemma same_closing_side_counterexample :
  ~ (forall mp mn,
       matchBracket abc (Selection_getStartPosition (newSelection 1 5 1 6)) = Some mp ->
       matchBracket abc (Selection_getEndPosition (newSelection 1 5 1 6)) = Some mn ->
       equalsRange (at0 mp) (at0 mn) = true ->
       equalsRange (at1 mp) (at1 mn) = true ->
       Position_equals (mkPosition 1 2)
                       (Selection_getStartPosition (newSelection 1 5 1 6)) = false ->
       option_map selectionRange (expandSelection abc 8 (newSelection 1 5 1 6))
       = Some (mkRange 1 1 1 6)).
Proof.
  intros H.
  specialize (H (mkRangePair 26 (mkRange 1 5 1 6) (mkRange 1 1 1 2))
                (mkRangePair 34 (mkRange 1 5 1 6) (mkRange 1 1 1 2))
                eq_refl eq_refl eq_refl eq_refl eq_refl).
  discriminate H.
Qed.

(** On [( ]x )] the caret follows the unmatched [ ] ]; the scans then
    find the parentheses. *)
Lemma unmatched_neighbor_falls_through_witness :
  findPrevBracket strayNeighbor (Selection_getStartPosition (caret 1 4))
    = Some (mkFoundBracket (mkRange 1 3 1 4) false)
  /\ matchBracket strayNeighbor (mkPosition 1 3) = None
  /\ directNeighbor strayNeighbor (caret 1 4) = None
  /\ expandSelection strayNeighbor 8 (caret 1 4)
     = subsequentRules strayNeighbor 8 (caret 1 4)
  /\ subsequentRules strayNeighbor 8 (caret 1 4) = Some (newSelection 1 6 1 2).
Proof.
  split; [reflexivity|]. split; [reflexivity|].
  destruct (unmatched_neighbor_falls_through strayNeighbor 8 (caret 1 4)
              (mkFoundBracket (mkRange 1 3 1 4) false) eq_refl eq_refl eq_refl)
    as [Hn He].
  split; [exact Hn | split; [exact He | reflexivity]].
Defined.

(** On [( x [ )] only the left scan finds a candidate; on [(] x )] only
    the right scan does. *)
Lemma one_sided_candidate_witness :
  expandSelection strayOpener 8 (newSelection 1 3 1 4) = Some (newSelection 1 2 1 7)
  /\ expandSelection strayCloser 8 (newSelection 1 4 1 5) = Some (newSelection 1 6 1 2).
Proof.
  split.
  - apply (one_sided_candidate strayOpener 8 (newSelection 1 3 1 4) true
             (mkFoundBracket (mkRange 1 1 1 2) true)
             (mkRangePair 4 (mkRange 1 1 1 2) (mkRange 1 7 1 8))); reflexivity.
  - apply (one_sided_candidate strayCloser 8 (newSelection 1 4 1 5) false
             (mkFoundBracket (mkRange 1 6 1 7) false)
             (mkRangePair 34 (mkRange 1 6 1 7) (mkRange 1 1 1 2))); reflexivity.
Defined.

(** C3 as stated: on [( x [ )] with [x] selected only the left scan finds
    a candidate, it resolves, and the result is not the pair's full span;
    on [(] x )] with [x] selected only the right scan finds one, it
    resolves, and the selection returned covers 1:2-1:6, not the pair's
    full span 1:1-1:7. *)
Lemma left_candidate_counterexample :
  ~ (forall b m,
       scanPrev strayOpener 8 (clone (Selection_getStartPosition (newSelection 1 3 1 4))) 0
         = Some (Some b) ->
       scanNext strayOpener 8 (clone (Selection_getEndPosition (newSelection 1 3 1 4))) 0
         = Some None ->
       matchBracket strayOpener (getStartPosition (range b)) = Some m ->
       expandSelection strayOpener 8 (newSelection 1 3 1 4) = Some (fullSpan m))
  /\ ~ (forall b m,
       scanPrev strayCloser 8 (clone (Selection_getStartPosition (newSelection 1 4 1 5))) 0
         = Some None ->
       scanNext strayCloser 8 (clone (Selection_getEndPosition (newSelection 1 4 1 5))) 0
         = Some (Some b) ->
       matchBracket strayCloser (getStartPosition (range b)) = Some m ->
       option_map selectionRange (expandSelection strayCloser 8 (newSelection 1 4 1 5))
       = Some (mkRange 1 1 1 7)).
Proof.
  split; intros H.
  - specialize (H (mkFoundBracket (mkRange 1 1 1 2) true)
                  (mkRangePair 4 (mkRange 1 1 1 2) (mkRange 1 7 1 8))
                  eq_refl eq_refl eq_refl).
    discriminate H.
  - specialize (H (mkFoundBracket (mkRange 1 6 1 7) false)
                  (mkRangePair 34 (mkRange 1 6 1 7) (mkRange 1 1 1 2))
                  eq_refl eq_refl eq_refl).
    discriminate H.
Qed.

(** On [([) x (])] and on [( x [)]] the right pair is chosen, on
    [(a (b) c)] the left. *)
Lemma both_sides_candidates_witness :
  expandSelection interleaved 8 (newSelection 1 5 1 6) = Some (newSelection 1 9 1 8)
  /\ expandSelection nested 8 (newSelection 1 8 1 9) = Some (newSelection 1 2 1 9)
  /\ expandSelection crossing 8 (newSelection 1 3 1 4) = Some (newSelection 1 7 1 6).
Proof.
  split; [|split].
  - apply (both_sides_candidates interleaved 8 (newSelection 1 5 1 6)
             (mkFoundBracket (mkRange 1 1 1 2) true)
             (mkFoundBracket (mkRange 1 9 1 10) false)
             (mkRangePair 4 (mkRange 1 1 1 2) (mkRange 1 3 1 4))
             (mkRangePair 64 (mkRange 1 9 1 10) (mkRange 1 7 1 8)));
      try reflexivity; discriminate.
  - apply (both_sides_candidates nested 8 (newSelection 1 8 1 9)
             (mkFoundBracket (mkRange 1 1 1 2) true)
             (mkFoundBracket (mkRange 1 9 1 10) false)
             (mkRangePair 4 (mkRange 1 1 1 2) (mkRange 1 9 1 10))
             (mkRangePair 64 (mkRange 1 9 1 10) (mkRange 1 1 1 2)));
      try reflexivity; discriminate.
  - apply (both_sides_candidates crossing 8 (newSelection 1 3 1 4)
             (mkFoundBracket (mkRange 1 1 1 2) true)
             (mkFoundBracket (mkRange 1 7 1 8) false)
             (mkRangePair 4 (mkRange 1 1 1 2) (mkRange 1 6 1 7))
             (mkRangePair 43 (mkRange 1 7 1 8) (mkRange 1 5 1 6)));
      try reflexivity; discriminate.
Defined.

(** C1 as stated: on [( x [)]] with [x] selected both scans find a
    candidate and both resolve: the parentheses 1:1 and 1:6 on the left,
    the square brackets 1:5 and 1:7 on the right. The left pair ends at
    1:7, which is not before the start of the right candidate (1:7) nor
    before the start of its pair (1:5), so the comparison as stated
    keeps the left pair, whose interior is 1:2-1:6; the selection
    returned covers 1:6-1:7, the interior of the right pair. *)
Lemma comparison_counterexample :
  ~ (forall pb nb mp mn,
       scanPrev crossing 8 (clone (Selection_getStartPosition (newSelection 1 3 1 4))) 0
         = Some (Some pb) ->
       scanNext crossing 8 (clone (Selection_getEndPosition (newSelection 1 3 1 4))) 0
         = Some (Some nb) ->
       matchBracket crossing (getStartPosition (range pb)) = Some mp ->
       matchBracket crossing (getStartPosition (range nb)) = Some mn ->
       isBefore (getEndPosition (at1 mp)) (getStartPosition (at0 mn)) = false ->
       isBefore (getEndPosition (at1 mp)) (getStartPosition (at1 mn)) = false ->
       option_map selectionRange (expandSelection crossing 8 (newSelection 1 3 1 4))
       = Some (mkRange 1 2 1 6)).
Proof.
  intros H.
  specialize (H (mkFoundBracket (mkRange 1 1 1 2) true)
                (mkFoundBracket (mkRange 1 7 1 8) false)
                (mkRangePair 4 (mkRange 1 1 1 2) (mkRange 1 6 1 7))
                (mkRangePair 43 (mkRange 1 7 1 8) (mkRange 1 5 1 6))
                eq_refl eq_refl eq_refl eq_refl eq_refl eq_refl).
  discriminate H.
Qed.

(** On [((a) b] with [b] selected: three brackets, four iterations at
    most; the unmatched outer parenthesis does not resolve and the
    selection is returned unchanged. *)
Lemma scans_terminate_witness :
  scanPrev (TextModel.ofTokens unterminated) 4 (mkPosition 1 6) 0
    = Some (Some (mkFoundBracket (mkRange 1 1 1 2) true))
  /\ scanNext (TextModel.ofTokens unterminated) 4 (mkPosition 1 7) 0 = Some None
  /\ forall fuel', 4 <= fuel' ->
       expandSelection (TextModel.ofTokens unterminated) fuel' (newSelection 1 6 1 7)
       = Some (newSelection 1 6 1 7).
Proof.
  pose proof (scans_terminate (TextModel.ofTokens unterminated)
                (map TextModel.found unterminated)
                (fun p b => ofTokens_prev unterminated p b unterminated_nonEmpty)
                (fun p b => ofTokens_next unterminated p b unterminated_nonEmpty)
                4 ltac:(simpl; lia)) as (_ & _ & _ & _ & He).
  split; [reflexivity|]. split; [reflexivity|].
  destruct (He (newSelection 1 6 1 7)) as (s & Hs & Hmore).
  assert (Es : s = newSelection 1 6 1 7) by (injection Hs as <-; reflexivity).
  rewrite Es in Hmore. exact Hmore.
Defined.

(** *** Further properties of the expansion *)

Lemma Position_equals_spec_refl p : Position_equals p p = true.
Proof. apply Position_equals_spec. reflexivity. Qed.

Lemma clone_same p : clone p = p.
Proof. destruct p; reflexivity. Qed.

Section More.

Variable model : ITextModel.

Lemma pickOutermost_shape sel pb nb :
  pickOutermost model sel pb nb = sel
  \/ exists p m, matchBracket model p = Some m
       /\ (pickOutermost model sel pb nb = fullSpan m
           \/ pickOutermost model sel pb nb = interior m).
Proof.
  unfold pickOutermost.
  destruct pb as [b1|], nb as [b2|]; [| | |left; reflexivity].
  - destruct (matchBracket model (getStartPosition (range b1))) as [mp|] eqn:Ep;
      destruct (matchBracket model (getStartPosition (range b2))) as [mn|] eqn:En;
      [| | |left; reflexivity].
    + destruct (isBefore _ _); simpl.
      * destruct (ident mn =? ident mp); [|rewrite Nat.eqb_refl]; right; eauto.
      * rewrite Nat.eqb_refl. right; eauto.
    + simpl. rewrite Nat.eqb_refl. right; eauto.
    + simpl. rewrite Nat.eqb_refl. right; eauto.
  - destruct (matchBracket model (getStartPosition (range b1))) as [mp|] eqn:Ep;
      [|left; reflexivity].
    simpl. rewrite Nat.eqb_refl. right; eauto.
  - destruct (matchBracket model (getStartPosition (range b2))) as [mn|] eqn:En;
      [|left; reflexivity].
    simpl. rewrite Nat.eqb_refl. right; eauto.
Qed.

Lemma scan_shape fuel sel s :
  outwardScan model fuel sel = Some s ->
  s = sel
  \/ exists p m, matchBracket model p = Some m /\ (s = fullSpan m \/ s = interior m).
Proof.
  unfold outwardScan.
  destruct (scanPrev model fuel _ _) as [pb|]; [|discriminate].
  destruct (scanNext model fuel _ _) as [nb|]; [|discriminate].
  intros [= <-]. apply pickOutermost_shape.
Qed.

Lemma subsequent_shape fuel sel s :
  subsequentRules model fuel sel = Some s ->
  s = sel
  \/ exists p m, matchBracket model p = Some m /\ (s = fullSpan m \/ s = interior m).
Proof.
  unfold subsequentRules, touchingBrackets.
  destruct (matchBracket model (Selection_getStartPosition sel)) as [mp|] eqn:Ep;
    destruct (matchBracket model (Selection_getEndPosition sel)) as [mn|] eqn:En.
  - destruct (_ && _); [intros [= <-]; right; eauto|].
    destruct (Position_equals _ _); [intros [= <-]; right; eauto|]. apply scan_shape.
  - destruct (Position_equals _ _); [intros [= <-]; right; eauto|]. apply scan_shape.
  - destruct (Position_equals _ _); [intros [= <-]; right; eauto|]. apply scan_shape.
  - apply scan_shape.
Qed.

(** X2. For a caret to which the direct-neighbor rule does not apply,
    whenever [matchBracket] resolves at the caret the result is the full
    span of that resolution. *)
Theorem caret_touching_bracket fuel sel m :
  directNeighbor model sel = None ->
  Position_equals (Selection_getStartPosition sel) (Selection_getEndPosition sel) = true ->
  matchBracket model (Selection_getStartPosition sel) = Some m ->
  expandSelection model fuel sel = Some (fullSpan m).
Proof.
  intros Hn Hcaret Hm. rewrite expandSelection_subsequent by assumption.
  unfold subsequentRules, touchingBrackets.
  pose proof Hcaret as Heq. apply Position_equals_spec in Heq.
  rewrite <- Heq, Hm, Position_equals_spec_refl.
  destruct (_ && _); reflexivity.
Qed.

(** X3. When no bracket precedes the selection start, none follows its
    end, and [matchBracket] resolves at neither end, one iteration of
    each loop suffices and the selection is returned as it is. *)
Theorem no_brackets_no_change fuel sel :
  findPrevBracket model (Selection_getStartPosition sel) = None ->
  findNextBracket model (Selection_getEndPosition sel) = None ->
  matchBracket model (Selection_getStartPosition sel) = None ->
  matchBracket model (Selection_getEndPosition sel) = None ->
  expandSelection model (S fuel) sel = Some sel.
Proof.
  intros Hp Hx Hmp Hmn.
  unfold expandSelection, directNeighbor. rewrite Hp.
  unfold subsequentRules, touchingBrackets. rewrite Hmp, Hmn.
  unfold outwardScan. rewrite !clone_same.
  rewrite (scanPrev_no_bracket model fuel _ _ Hp), (scanNext_no_bracket model fuel _ _ Hx).
  reflexivity.
Qed.

(** X4. When the scans have run and no candidate they ended on is
    resolved by [matchBracket], the selection is returned as it is. *)
Theorem unresolved_candidates_no_change fuel sel pb nb :
  directNeighbor model sel = None ->
  touchingBrackets model sel = None ->
  scanPrev model fuel (clone (Selection_getStartPosition sel)) 0 = Some pb ->
  scanNext model fuel (clone (Selection_getEndPosition sel)) 0 = Some nb ->
  (forall b, pb = Some b -> matchBracket model (getStartPosition (range b)) = None) ->
  (forall b, nb = Some b -> matchBracket model (getStartPosition (range b)) = None) ->
  expandSelection model fuel sel = Some sel.
Proof.
  intros Hn Ht Hp Hx Hpb Hnb.
  rewrite expandSelection_scan by assumption.
  unfold outwardScan. rewrite Hp, Hx. unfold pickOutermost.
  destruct pb as [b1|], nb as [b2|];
    rewrite ?(Hpb b1 eq_refl), ?(Hnb b2 eq_refl); reflexivity.
Qed.

(** X5. Whatever the rule that applies, the result is the selection
    itself, or the full span or the interior of a pair that
    [matchBracket] returned. *)
Theorem expand_result_shape fuel sel s :
  expandSelection model fuel sel = Some s ->
  s = sel
  \/ exists p m, matchBracket model p = Some m /\ (s = fullSpan m \/ s = interior m).
Proof.
  unfold expandSelection, directNeighbor.
  destruct (findPrevBracket model (Selection_getStartPosition sel)) as [b|].
  - destruct (Position_equals _ _).
    + destruct (matchBracket model (getStartPosition (range b))) as [m|] eqn:Em.
      * destruct (isOpen b); intros [= <-]; right; eauto.
      * apply subsequent_shape.
    + apply subsequent_shape.
  - apply subsequent_shape.
Qed.

(** X6. Started with a counter that is not negative, the leftward scan
    can only end on an opening bracket and the rightward scan only on a
    closing one. *)
Theorem scan_candidate_kinds fuel : forall p c b,
  (0 <= c)%Z ->
  (scanPrev model fuel p c = Some (Some b) -> isOpen b = true)
  /\ (scanNext model fuel p c = Some (Some b) -> isOpen b = false).
Proof.
  induction fuel as [|fuel IH]; intros p c b Hc; [split; discriminate|].
  split; simpl.
  - destruct (findPrevBracket model p) as [x|]; [|discriminate].
    destruct (Z.leb_spec 0 (if negb (isOpen x) then c + 1 else c - 1)%Z) as [Hge|Hlt].
    + apply (IH _ _ b Hge).
    + intros [= <-]. destruct (isOpen x); [reflexivity | simpl in Hlt; lia].
  - destruct (findNextBracket model p) as [x|]; [|discriminate].
    destruct (Z.leb_spec 0 (if isOpen x then c + 1 else c - 1)%Z) as [Hge|Hlt].
    + apply (IH _ _ b Hge).
    + intros [= <-]. destruct (isOpen x); [lia | reflexivity].
Qed.

(** X7. If every bracket returned by [findPrevBracket] starts strictly
    before the queried position and every bracket returned by
    [findNextBracket] ends strictly after it, the candidate of the
    leftward scan starts strictly before the position the scan started
    from and the candidate of the rightward scan ends strictly after it. *)
Theorem scan_candidates_outside fuel : forall p c b,
  (forall q x, findPrevBracket model q = Some x ->
               isBefore (getStartPosition (range x)) q = true) ->
  (forall q x, findNextBracket model q = Some x ->
               isBefore q (getEndPosition (range x)) = true) ->
  (scanPrev model fuel p c = Some (Some b) ->
     isBefore (getStartPosition (range b)) p = true)
  /\ (scanNext model fuel p c = Some (Some b) ->
     isBefore p (getEndPosition (range b)) = true).
Proof.
  induction fuel as [|fuel IH]; intros p c b Hprev Hnext; [split; discriminate|].
  split; simpl.
  - destruct (findPrevBracket model p) as [x|] eqn:E; [|discriminate].
    pose proof (Hprev p x E) as Hx.
    destruct (0 <=? _)%Z.
    + intros H. apply (IH _ _ b Hprev Hnext) in H.
      eapply isBefore_trans; eauto.
    + intros [= <-]. exact Hx.
  - destruct (findNextBracket model p) as [x|] eqn:E; [|discriminate].
    pose proof (Hnext p x E) as Hx.
    destruct (0 <=? _)%Z.
    + intros H. apply (IH _ _ b Hprev Hnext) in H.
      eapply isBefore_trans; eauto.
    + intros [= <-]. exact Hx.
Qed.

End More.

(** The caret between [c] and [)] on [(abc)]. *)
Lemma caret_touching_bracket_witness :
  directNeighbor abc (caret 1 5) = None
  /\ matchBracket abc (Selection_getStartPosition (caret 1 5))
     = Some (mkRangePair 26 (mkRange 1 5 1 6) (mkRange 1 1 1 2))
  /\ expandSelection abc 0 (caret 1 5) = Some (newSelection 1 5 1 2).
Proof.
  split; [reflexivity|]. split; [reflexivity|].
  apply (caret_touching_bracket abc 0 (caret 1 5)
           (mkRangePair 26 (mkRange 1 5 1 6) (mkRange 1 1 1 2))); reflexivity.
Defined.

(** [b] selected on the line [abc]. *)
Lemma no_brackets_no_change_witness :
  findPrevBracket plain (Selection_getStartPosition (newSelection 1 2 1 3)) = None
  /\ findNextBracket plain (Selection_getEndPosition (newSelection 1 2 1 3)) = None
  /\ expandSelection plain 1 (newSelection 1 2 1 3) = Some (newSelection 1 2 1 3).
Proof.
  split; [reflexivity|]. split; [reflexivity|].
  apply (no_brackets_no_change plain 0 (newSelection 1 2 1 3)); reflexivity.
Defined.

(** [b] selected on [((a) b]: the scan ends on the outer parenthesis,
    which has no partner. *)
Lemma unresolved_candidates_no_change_witness :
  scanPrev (TextModel.ofTokens unterminated) 4
    (clone (Selection_getStartPosition (newSelection 1 6 1 7))) 0
    = Some (Some (mkFoundBracket (mkRange 1 1 1 2) true))
  /\ matchBracket (TextModel.ofTokens unterminated) (mkPosition 1 1) = None
  /\ expandSelection (TextModel.ofTokens unterminated) 4 (newSelection 1 6 1 7)
     = Some (newSelection 1 6 1 7).
Proof.
  split; [reflexivity|]. split; [reflexivity|].
  apply (unresolved_candidates_no_change (TextModel.ofTokens unterminated) 4
           (newSelection 1 6 1 7)
           (Some (mkFoundBracket (mkRange 1 1 1 2) true)) None);
    try reflexivity.
  - intros b [= <-]. reflexivity.
  - intros b [=].
Defined.

(** [c] selected on [(a (b) c)]: the result is the interior of the outer
    pair. *)
Lemma expand_result_shape_witness :
  expandSelection nested 8 (newSelection 1 8 1 9) = Some (newSelection 1 2 1 9)
  /\ (newSelection 1 2 1 9 = newSelection 1 8 1 9
      \/ exists p m, matchBracket nested p = Some m
           /\ (newSelection 1 2 1 9 = fullSpan m \/ newSelection 1 2 1 9 = interior m)).
Proof.
  split; [reflexivity|].
  exact (expand_result_shape nested 8 (newSelection 1 8 1 9) (newSelection 1 2 1 9) eq_refl).
Defined.

(** The two scans around [x] on [([) x (])]. *)
Lemma scan_candidate_kinds_witness :
  scanPrev interleaved 8 (mkPosition 1 5) 0
    = Some (Some (mkFoundBracket (mkRange 1 1 1 2) true))
  /\ scanNext interleaved 8 (mkPosition 1 6) 0
    = Some (Some (mkFoundBracket (mkRange 1 9 1 10) false))
  /\ isOpen (mkFoundBracket (mkRange 1 1 1 2) true) = true
  /\ isOpen (mkFoundBracket (mkRange 1 9 1 10) false) = false.
Proof.
  split; [reflexivity|]. split; [reflexivity|]. split.
  - apply (proj1 (scan_candidate_kinds interleaved 8 (mkPosition 1 5) 0
                    (mkFoundBracket (mkRange 1 1 1 2) true) ltac:(lia))).
    reflexivity.
  - apply (proj2 (scan_candidate_kinds interleaved 8 (mkPosition 1 6) 0
                    (mkFoundBracket (mkRange 1 9 1 10) false) ltac:(lia))).
    reflexivity.
Defined.

(** The leftward scan from [b] on [((a) b]. *)
Lemma scan_candidates_outside_witness :
  scanPrev (TextModel.ofTokens unterminated) 4 (mkPosition 1 6) 0
    = Some (Some (mkFoundBracket (mkRange 1 1 1 2) true))
  /\ isBefore (getStartPosition (range (mkFoundBracket (mkRange 1 1 1 2) true)))
              (mkPosition 1 6) = true.
Proof.
  split; [reflexivity|].
  apply (proj1 (scan_candidates_outside (TextModel.ofTokens unterminated) 4
                  (mkPosition 1 6) 0 (mkFoundBracket (mkRange 1 1 1 2) true)
                  (fun q x H => proj2 (ofTokens_prev unterminated q x unterminated_nonEmpty H))
                  (fun q x H => proj2 (ofTokens_next unterminated q x unterminated_nonEmpty H)))).
  reflexivity.
Defined.

End ExpandBracketFacts.

(* ===================================================================== *)
(** ** The selection state machine *)
(* ===================================================================== *)

Module SmartSelectFacts.

Import SmartSelect Samples.

Section Facts.

Variable getRangesToPosition : EditorId -> Position -> list Range.
Variable setSelectionThrows : EditorId -> RangeLike -> bool.

Local Abbreviation buildChain' := (buildChain getRangesToPosition).
Local Abbreviation prepare' := (prepare getRangesToPosition).
Local Abbreviation applySelection' := (applySelection setSelectionThrows).
Local Abbreviation move' := (move setSelectionThrows).
Local Abbreviation run' := (run getRangesToPosition setSelectionThrows).
Local Abbreviation runs' := (runs getRangesToPosition setSelectionThrows).

(** *** Allocating and linking [State] objects *)

Lemma lookup_snoc_new {A} (h : list A) (x : A) : (h ++ [x]) !! length h = Some x.
Proof. rewrite lookup_app_r by lia. rewrite Nat.sub_diag. reflexivity. Qed.

Lemma alter_snoc_new (f : State -> State) (h : list State) x :
  alter f (length h) (h ++ [x]) = h ++ [f x].
Proof.
  replace (length h) with (length h + 0) at 1 by lia.
  rewrite alter_app_r. reflexivity.
Qed.

(** The store after [l.previous = x] for a new object [x] at the end. *)
Lemma attach_lookup_new (h : list State) l x :
  l < length h ->
  alter (withPrevious (Some (length h))) l (h ++ [x]) !! length h = Some x.
Proof.
  intros Hl. rewrite list_lookup_alter_ne by lia. apply lookup_snoc_new.
Qed.

Lemma attach_lookup_last (h : list State) l x sl :
  h !! l = Some sl ->
  alter (withPrevious (Some (length h))) l (h ++ [x]) !! l
  = Some (withPrevious (Some (length h)) sl).
Proof.
  intros Hl. rewrite list_lookup_alter_eq.
  rewrite (lookup_app_l_Some _ _ _ _ Hl). reflexivity.
Qed.

Lemma attach_lookup_old (h : list State) l x i st :
  i <> l -> h !! i = Some st ->
  alter (withPrevious (Some (length h))) l (h ++ [x]) !! i = Some st.
Proof.
  intros Hne Hi. rewrite list_lookup_alter_ne by congruence.
  apply lookup_app_l_Some, Hi.
Qed.

Lemma attach_inv (h : list State) l x i st :
  l < length h ->
  alter (withPrevious (Some (length h))) l (h ++ [x]) !! i = Some st ->
  (i = length h /\ st = x)
  \/ (i = l /\ exists sl, h !! l = Some sl /\ st = withPrevious (Some (length h)) sl)
  \/ (i <> l /\ i < length h /\ h !! i = Some st).
Proof.
  intros Hl H.
  assert (Hi : i < length (alter (withPrevious (Some (length h))) l (h ++ [x])))
    by (eapply lookup_lt_Some; eauto).
  rewrite length_alter, length_app in Hi. simpl in Hi.
  destruct (decide (i = length h)) as [->|Hn].
  - left. rewrite attach_lookup_new in H by assumption. split; congruence.
  - right. destruct (decide (i = l)) as [->|Hne].
    + left. split; [reflexivity|].
      destruct (lookup_lt_is_Some_2 h l Hl) as [sl Hsl].
      rewrite (attach_lookup_last _ _ _ _ Hsl) in H. exists sl. split; congruence.
    + right. rewrite list_lookup_alter_ne in H by congruence.
      rewrite lookup_app_l in H by lia. repeat split; [assumption|lia|assumption].
Qed.

Lemma Chain_ext h h' r l :
  (forall i st, h !! i = Some st ->
     exists st', h' !! i = Some st' /\ next st' = next st /\ selection st' = selection st) ->
  Chain h r l -> Chain h' r l.
Proof.
  intros Hext HC. induction HC as [|r st l Hr _ IH]; [constructor|].
  destruct (Hext _ _ Hr) as (st' & H1 & H2 & H3).
  rewrite <- H3. econstructor; [eassumption|]. rewrite H2. exact IH.
Qed.

Lemma snoc_chain (h : list State) x :
  next x = None -> Chain (h ++ [x]) (Some (length h)) [selection x].
Proof.
  intros Hx. econstructor; [apply lookup_snoc_new|]. rewrite Hx. constructor.
Qed.

Lemma attach_chain (h : list State) l x L :
  Chain h (Some l) L -> next x = Some l ->
  Chain (alter (withPrevious (Some (length h))) l (h ++ [x])) (Some (length h))
        (selection x :: L).
Proof.
  intros HC Hx.
  assert (Hl : l < length h) by (inversion HC; subst; eapply lookup_lt_Some; eauto).
  econstructor; [apply attach_lookup_new, Hl|].
  rewrite Hx. eapply Chain_ext; [|exact HC].
  intros i st Hi. destruct (decide (i = l)) as [->|Hne].
  - eexists. split; [apply attach_lookup_last, Hi|]. split; reflexivity.
  - exists st. split; [apply attach_lookup_old; assumption|]. split; reflexivity.
Qed.

Lemma snoc_linked (h : list State) x :
  linked h -> next x = None -> previous x = None -> linked (h ++ [x]).
Proof.
  intros HL Hn Hp a sa Ha.
  apply lookup_app_Some in Ha as [Ha|[Hge Ha]].
  - destruct (HL a sa Ha) as [H1 H2]. split; intros b Hb.
    + destruct (H1 b Hb) as (sb & Hsb & ?). exists sb.
      split; [apply lookup_app_l_Some, Hsb | assumption].
    + destruct (H2 b Hb) as (sb & Hsb & ?). exists sb.
      split; [apply lookup_app_l_Some, Hsb | assumption].
  - destruct (a - length h) as [|n] eqn:E; simpl in Ha; [|destruct n; discriminate].
    injection Ha as <-. split; intros b Hb; congruence.
Qed.

Lemma attach_linked (h : list State) l sl x :
  linked h -> h !! l = Some sl -> previous sl = None -> editor sl = editor x ->
  next x = Some l -> previous x = None ->
  linked (alter (withPrevious (Some (length h))) l (h ++ [x])).
Proof.
  intros HL Hl Hpl Hed Hnx Hpx a sa Ha.
  assert (Hlt : l < length h) by (eapply lookup_lt_Some; eauto).
  apply attach_inv in Ha; [|assumption].
  destruct Ha as [[-> ->]|[[-> (sl' & Hsl' & ->)]|(Hne & Hlt' & Ha)]].
  - (* the new object *)
    split; intros b Hb; [|congruence].
    rewrite Hnx in Hb. injection Hb as <-.
    eexists. split; [apply attach_lookup_last, Hl|]. split; [reflexivity|exact Hed].
  - (* the former last object *)
    assert (sl' = sl) by congruence. subst sl'.
    destruct (HL l sl Hl) as [H1 _]. split; intros b Hb; simpl in *.
    + destruct (H1 b Hb) as (sb & Hsb & Hpb & Heb).
      assert (b <> l) by (intros ->; congruence).
      exists sb. split; [apply attach_lookup_old; assumption|]. split; assumption.
    + injection Hb as <-. exists x.
      split; [apply attach_lookup_new, Hlt|]. split; [exact Hnx | symmetry; exact Hed].
  - (* an older object *)
    destruct (HL a sa Ha) as [H1 H2]. split; intros b Hb.
    + destruct (H1 b Hb) as (sb & Hsb & Hpb & Heb).
      assert (b <> l) by (intros ->; congruence).
      exists sb. split; [apply attach_lookup_old; assumption|]. split; assumption.
    + destruct (H2 b Hb) as (sb & Hsb & Hnb & Heb).
      destruct (decide (b = l)) as [->|Hbl].
      * assert (sb = sl) by congruence. subst sb.
        eexists. split; [apply attach_lookup_last, Hl|]. split; assumption.
      * exists sb. split; [apply attach_lookup_old; assumption|]. split; assumption.
Qed.

(** *** The [forEach] loop *)

Lemma addCandidate_some e h l c :
  addCandidate e (h, Some l) c
  = (alter (withPrevious (Some (length h))) l
       (h ++ [mkState e (Some l) None (ARange (rangeOf c))]), Some (length h)).
Proof. unfold addCandidate. rewrite alter_snoc_new. reflexivity. Qed.

Lemma addCandidate_chain e h lastState L c :
  Chain h lastState L ->
  Chain (fst (addCandidate e (h, lastState) c)) (snd (addCandidate e (h, lastState) c))
        (ARange (rangeOf c) :: L).
Proof.
  intros HC. destruct lastState as [l|].
  - rewrite addCandidate_some. simpl.
    apply (attach_chain h l (mkState e (Some l) None (ARange (rangeOf c))) L HC).
    reflexivity.
  - inversion HC; subst. simpl.
    apply (snoc_chain h (mkState e None None (ARange (rangeOf c)))). reflexivity.
Qed.

Lemma addCandidate_length e h lastState c :
  length (fst (addCandidate e (h, lastState) c)) = S (length h).
Proof.
  destruct lastState as [l|]; simpl;
    rewrite ?length_alter, length_app; simpl; lia.
Qed.

Lemma addCandidate_linked e h lastState c :
  linked h -> openEnd e h lastState ->
  linked (fst (addCandidate e (h, lastState) c))
  /\ openEnd e (fst (addCandidate e (h, lastState) c)) (snd (addCandidate e (h, lastState) c)).
Proof.
  intros HL HO. destruct lastState as [l|].
  - destruct (HO l eq_refl) as (sl & Hl & Hp & He).
    assert (Hlt : l < length h) by (eapply lookup_lt_Some; eauto).
    rewrite addCandidate_some. simpl. split.
    + eapply attach_linked; eauto.
    + intros r [= <-]. eexists. split; [apply attach_lookup_new, Hlt|]. split; reflexivity.
  - simpl. split.
    + apply snoc_linked; auto.
    + intros r [= <-]. eexists. split; [apply lookup_snoc_new|]. split; reflexivity.
Qed.

Lemma forEach_chain e cs : forall h lastState L,
  Chain h lastState L ->
  Chain (fst (fold_left (addCandidate e) cs (h, lastState)))
        (snd (fold_left (addCandidate e) cs (h, lastState)))
        (rev (map (fun c => ARange (rangeOf c)) cs) ++ L).
Proof.
  induction cs as [|c cs IH]; intros h lastState L HC; [exact HC|].
  change (fold_left (addCandidate e) (c :: cs) (h, lastState))
    with (fold_left (addCandidate e) cs (addCandidate e (h, lastState) c)).
  pose proof (addCandidate_chain e h lastState L c HC) as H.
  destruct (addCandidate e (h, lastState) c) as [h' last'].
  cbn [map rev]. rewrite <- app_assoc. cbn [app]. apply IH, H.
Qed.

Lemma forEach_length e cs : forall h lastState,
  length (fst (fold_left (addCandidate e) cs (h, lastState))) = length h + length cs.
Proof.
  induction cs as [|c cs IH]; intros h lastState; [simpl; lia|].
  change (fold_left (addCandidate e) (c :: cs) (h, lastState))
    with (fold_left (addCandidate e) cs (addCandidate e (h, lastState) c)).
  pose proof (addCandidate_length e h lastState c) as H.
  destruct (addCandidate e (h, lastState) c) as [h' last'].
  rewrite IH. simpl in *. lia.
Qed.

Lemma forEach_linked e cs : forall h lastState,
  linked h -> openEnd e h lastState ->
  linked (fst (fold_left (addCandidate e) cs (h, lastState)))
  /\ openEnd e (fst (fold_left (addCandidate e) cs (h, lastState)))
               (snd (fold_left (addCandidate e) cs (h, lastState))).
Proof.
  induction cs as [|c cs IH]; intros h lastState HL HO; [split; assumption|].
  change (fold_left (addCandidate e) (c :: cs) (h, lastState))
    with (fold_left (addCandidate e) cs (addCandidate e (h, lastState) c)).
  destruct (addCandidate_linked e h lastState c HL HO) as [H1 H2].
  destruct (addCandidate e (h, lastState) c) as [h' last']. apply IH; assumption.
Qed.

(** *** The chain that [buildChain] leaves *)

Lemma Chain_chainOutward h r l :
  Chain h r l -> forall fuel, length l <= fuel -> chainOutward fuel h r = l.
Proof.
  induction 1 as [|r st l Hr _ IH]; intros fuel Hf.
  - destruct fuel; reflexivity.
  - destruct fuel; simpl in *; [lia|]. rewrite Hr. f_equal. apply IH. lia.
Qed.

Lemma buildChain_built e w c cs :
  getRangesToPosition e (Selection_getStartPosition (editorSelection w e)) = c :: cs ->
  exists h r nx,
    buildChain' e w
      = mkWorld h (Some r) (ignoreSelection w) (editorSelection w) (e :: listeners w)
    /\ h !! r = Some (mkState e nx None (ASelection (editorSelection w e)))
    /\ Chain h (Some r)
         (ASelection (editorSelection w e)
          :: rev (map (fun x => ARange (rangeOf x))
                      (List.filter (enclosesSelection (editorSelection w e)) (c :: cs))))
    /\ length h
       = length (heap w)
         + length (List.filter (enclosesSelection (editorSelection w e)) (c :: cs)) + 1
    /\ (linked (heap w) -> linked h).
Proof.
  intros Hel. unfold buildChain. rewrite Hel.
  set (kept := List.filter (enclosesSelection (editorSelection w e)) (c :: cs)).
  pose proof (forEach_chain e kept (heap w) None [] (Chain_nil _)) as HC.
  pose proof (forEach_length e kept (heap w) None) as Hlen.
  pose proof (forEach_linked e kept (heap w) None) as HL.
  destruct (fold_left (addCandidate e) kept (heap w, None)) as [h lastState].
  simpl in HC, Hlen, HL. rewrite app_nil_r in HC.
  destruct lastState as [l|].
  - assert (Hlt : l < length h) by (inversion HC; subst; eapply lookup_lt_Some; eauto).
    exists (alter (withPrevious (Some (length h))) l
              (h ++ [mkState e (Some l) None (ASelection (editorSelection w e))])),
           (length h), (Some l).
    split; [reflexivity|]. split; [apply attach_lookup_new, Hlt|].
    split; [|split].
    + apply (attach_chain h l (mkState e (Some l) None (ASelection (editorSelection w e))));
        [exact HC | reflexivity].
    + rewrite length_alter, length_app. simpl. lia.
    + intros Hw. destruct HL as [HL HO]; [exact Hw | intros r [=] |].
      destruct (HO l eq_refl) as (sl & Hl & Hp & He).
      eapply attach_linked; eauto.
  - exists (h ++ [mkState e None None (ASelection (editorSelection w e))]),
           (length h), None.
    split; [reflexivity|]. split; [apply lookup_snoc_new|].
    split; [|split].
    + inversion HC as [Hnil|]. 
      apply (snoc_chain h (mkState e None None (ASelection (editorSelection w e)))).
      reflexivity.
    + rewrite length_app. simpl. lia.
    + intros Hw. destruct HL as [HL HO]; [exact Hw | intros r [=] |].
      apply snoc_linked; auto.
Qed.

Lemma buildChain_empty e w :
  getRangesToPosition e (Selection_getStartPosition (editorSelection w e)) = [] ->
  buildChain' e w = w.
Proof. unfold buildChain. intros ->. reflexivity. Qed.

Lemma buildChain_currentChain e w c cs :
  getRangesToPosition e (Selection_getStartPosition (editorSelection w e)) = c :: cs ->
  currentChain (buildChain' e w)
  = ASelection (editorSelection w e)
    :: rev (map (fun x => ARange (rangeOf x))
                (List.filter (enclosesSelection (editorSelection w e)) (c :: cs))).
Proof.
  intros Hel. destruct (buildChain_built e w c cs Hel) as (h & r & nx & -> & _ & HC & Hlen & _).
  unfold currentChain. cbn [heap state].
  apply Chain_chainOutward; [exact HC|].
  rewrite Hlen. cbn [length]. rewrite length_rev, length_map. lia.
Qed.

(** Ranges ordered outermost first, read backwards, nest outward. *)
Lemma nestedOutward_snoc l x y :
  nestedOutward (l ++ [x]) -> containsRange (toRange y) (toRange x) = true ->
  nestedOutward ((l ++ [x]) ++ [y]).
Proof.
  intros Hn Hxy i a b Ha Hb.
  assert (Hi : S i < length ((l ++ [x]) ++ [y])) by (eapply lookup_lt_Some; eauto).
  rewrite !length_app in Hi. simpl in Hi.
  destruct (decide (S i < length (l ++ [x]))) as [Hlt|Hge].
  - rewrite lookup_app_l in Ha by lia. rewrite lookup_app_l in Hb by lia. eauto.
  - rewrite length_app in Hge. simpl in Hge.
    assert (i = length l) by lia. subst i.
    rewrite lookup_app_l in Ha by (rewrite length_app; simpl; lia).
    rewrite lookup_snoc_new in Ha.
    replace (S (length l)) with (length (l ++ [x])) in Hb by (rewrite length_app; simpl; lia).
    rewrite lookup_snoc_new in Hb. congruence.
Qed.

Lemma nestedOutward_short x : nestedOutward [x].
Proof. intros i a b Ha Hb. destruct i; discriminate. Qed.

(** The chain head followed by the kept candidates, innermost first. *)
Lemma nestedOutward_rev sel kept :
  Forall (fun c => enclosesSelection sel c = true) kept ->
  outermostFirst kept ->
  nestedOutward (ASelection sel :: rev (map (fun x => ARange (rangeOf x)) kept)).
Proof.
  intros Hall Hsorted. induction Hsorted as [|c kept Hs IH Hc].
  - apply nestedOutward_short.
  - inversion Hall as [|? ? Hcsel Hall']; subst. specialize (IH Hall').
    cbn [map rev]. rewrite app_comm_cons.
    destruct (rev (map (fun x => ARange (rangeOf x)) kept)) as [|z zs] eqn:E using rev_ind.
    + simpl. intros i a b Ha Hb.
      destruct i as [|[|i]]; simpl in Ha, Hb; try discriminate.
      injection Ha as <-. injection Hb as <-. simpl.
      unfold enclosesSelection in Hcsel. unfold containsRange, containsPosition in *.
      apply andb_true_iff in Hcsel as [H1 H2].
      apply andb_true_iff in H1 as [H1 _]. apply andb_true_iff in H2 as [_ H2].
      rewrite andb_true_iff. split; assumption.
    + rewrite app_comm_cons. apply nestedOutward_snoc.
      * rewrite <- app_comm_cons. exact IH.
      * (* [z] is the first of [kept], which [c] contains *)
        destruct kept as [|k kept']; [destruct zs; discriminate|].
        cbn [map rev] in E. apply app_inj_tail in E as [_ <-].
        inversion Hc; subst. simpl. assumption.
Qed.

Lemma outermostFirst_filter (f : Range -> bool) l :
  outermostFirst l -> outermostFirst (List.filter f l).
Proof.
  unfold outermostFirst. induction 1 as [|x l Hs IH Hx]; [constructor|].
  simpl. destruct (f x); [|exact IH].
  constructor; [exact IH|].
  apply Forall_forall. intros y Hy. apply list_elem_of_In in Hy.
  apply filter_In in Hy as [Hy _].
  rewrite Forall_forall in Hx. apply Hx. apply list_elem_of_In, Hy.
Qed.

(** C4 (as amended). The chain that [buildChain] leaves starts with the
    selection current at build time, followed by the candidates that
    contain both its start and its end, the last one received first; each
    candidate node contains both ends of that selection, hence the head;
    and when the provider's entries come outermost first (each containing
    every later one) each node's range is contained in the next node's. *)
Theorem built_chain_contains e w c cs :
  getRangesToPosition e (Selection_getStartPosition (editorSelection w e)) = c :: cs ->
  currentChain (buildChain' e w)
    = ASelection (editorSelection w e)
      :: rev (map (fun x => ARange (rangeOf x))
                  (List.filter (enclosesSelection (editorSelection w e)) (c :: cs)))
  /\ (forall i x, currentChain (buildChain' e w) !! (S i) = Some x ->
        exists r, x = ARange r
          /\ containsPosition r (Selection_getStartPosition (editorSelection w e)) = true
          /\ containsPosition r (Selection_getEndPosition (editorSelection w e)) = true
          /\ containsRange r (selectionRange (editorSelection w e)) = true)
  /\ (outermostFirst (c :: cs) -> nestedOutward (currentChain (buildChain' e w))).
Proof.
  clear setSelectionThrows. intros Hel. rewrite (buildChain_currentChain e w c cs Hel).
  set (sel := editorSelection w e).
  set (kept := List.filter (enclosesSelection sel) (c :: cs)).
  assert (Hall : Forall (fun x => enclosesSelection sel x = true) kept).
  { apply Forall_forall. intros x Hx. apply list_elem_of_In in Hx.
    apply filter_In in Hx. tauto. }
  split; [reflexivity|]. split.
  - intros i x Hx. cbn [lookup list_lookup] in Hx.
    apply list_elem_of_lookup_2 in Hx. apply list_elem_of_In in Hx.
    apply in_rev in Hx. apply in_map_iff in Hx as (k & <- & Hk).
    rewrite Forall_forall in Hall. apply list_elem_of_In in Hk.
    specialize (Hall k Hk). unfold enclosesSelection in Hall.
    apply andb_true_iff in Hall as [H1 H2].
    exists (rangeOf k). repeat split; try assumption.
    unfold containsRange, containsPosition in H1, H2 |- *.
    apply andb_true_iff in H1 as [H1 _]. apply andb_true_iff in H2 as [_ H2].
    rewrite andb_true_iff. split; assumption.
  - intros Hs. apply nestedOutward_rev; [exact Hall|].
    apply outermostFirst_filter, Hs.
Qed.

(** *** The selection-applying section *)

Lemma applySelection_thrown e x w :
  setSelectionThrows e x = true ->
  applySelection' e x w = (setIgnoreSelection false w, Thrown).
Proof. unfold applySelection, setSelection. intros ->. reflexivity. Qed.

Lemma applySelection_normal e x w :
  setSelectionThrows e x = false ->
  applySelection' e x w
  = (setIgnoreSelection false (select e (toSelection x) w), Normal).
Proof. unfold applySelection, setSelection. intros ->. reflexivity. Qed.

Lemma applySelection_flag e x w :
  ignoreSelection (fst (applySelection' e x w)) = false.
Proof.
  destruct (setSelectionThrows e x) eqn:E.
  - rewrite applySelection_thrown by assumption. reflexivity.
  - rewrite applySelection_normal by assumption. reflexivity.
Qed.

(** *** What building a chain leaves alone *)

Lemma forgetStale_flag e w : ignoreSelection (forgetStale e w) = ignoreSelection w.
Proof.
  unfold forgetStale. destruct (state w); [|reflexivity].
  destruct (heap w !! _); [|reflexivity]. destruct (_ =? _); reflexivity.
Qed.

Lemma forgetStale_selection e w : editorSelection (forgetStale e w) = editorSelection w.
Proof.
  unfold forgetStale. destruct (state w); [|reflexivity].
  destruct (heap w !! _); [|reflexivity]. destruct (_ =? _); reflexivity.
Qed.

Lemma forgetStale_heap e w : heap (forgetStale e w) = heap w.
Proof.
  unfold forgetStale. destruct (state w); [|reflexivity].
  destruct (heap w !! _); [|reflexivity]. destruct (_ =? _); reflexivity.
Qed.

Lemma buildChain_flag e w : ignoreSelection (buildChain' e w) = ignoreSelection w.
Proof.
  unfold buildChain. destruct (getRangesToPosition _ _); [reflexivity|].
  destruct (fold_left _ _ _). reflexivity.
Qed.

Lemma buildChain_selection e w : editorSelection (buildChain' e w) = editorSelection w.
Proof.
  unfold buildChain. destruct (getRangesToPosition _ _); [reflexivity|].
  destruct (fold_left _ _ _). reflexivity.
Qed.

Lemma prepare_flag e w : ignoreSelection (prepare' e w) = ignoreSelection w.
Proof.
  unfold prepare. destruct (state (forgetStale e w));
    [|rewrite buildChain_flag]; apply forgetStale_flag.
Qed.

Lemma prepare_selection e w : editorSelection (prepare' e w) = editorSelection w.
Proof.
  unfold prepare. destruct (state (forgetStale e w));
    [|rewrite buildChain_selection]; apply forgetStale_selection.
Qed.

(** The only way [move] throws is through the selection-applying section;
    either way the flag is down afterwards unless nothing was applied. *)
Lemma move_flag e forward w :
  ignoreSelection (fst (move' e forward w)) = false
  \/ (ignoreSelection (fst (move' e forward w)) = ignoreSelection w
      /\ snd (move' e forward w) = Normal).
Proof.
  unfold move. destruct (state w) as [r|]; [|right; split; reflexivity].
  simpl. destruct (target forward w r) as [t|]; [|right; split; reflexivity].
  destruct (heap w !! t); [|right; split; reflexivity].
  left. apply applySelection_flag.
Qed.

Lemma existsb_eqb_In e (l : list EditorId) : existsb (Nat.eqb e) l = true <-> In e l.
Proof.
  rewrite existsb_exists. split.
  - intros (x & Hin & Heq). apply Nat.eqb_eq in Heq. subst. exact Hin.
  - intros Hin. exists e. split; [exact Hin | apply Nat.eqb_refl].
Qed.

(** With the flag down, a cursor move on an editor that carries a
    listener discards the chain. *)
Lemma cursorMoved_discards e s w :
  ignoreSelection w = false -> In e (listeners w) -> state (cursorMoved e s w) = None.
Proof.
  intros Hflag Hin. unfold cursorMoved, onDidChangeCursorPosition. simpl.
  rewrite Hflag. apply existsb_eqb_In in Hin. rewrite Hin. reflexivity.
Qed.

(** C8. Whatever [setSelection] does, the selection-applying section
    ends with [ignoreSelection = false]; a call of [run] that throws
    leaves the flag down, so that a later cursor move on an editor
    carrying a listener still discards the chain; and a call of [run]
    entered with the flag down leaves it down. *)
Theorem guard_released e forward w :
  (forall x, ignoreSelection (fst (applySelection' e x w)) = false)
  /\ (snd (run' e forward w) = Thrown ->
      ignoreSelection (fst (run' e forward w)) = false
      /\ forall e' s, In e' (listeners (fst (run' e forward w))) ->
           state (cursorMoved e' s (fst (run' e forward w))) = None)
  /\ (ignoreSelection w = false -> ignoreSelection (fst (run' e forward w)) = false).
Proof.
  split; [intros x; apply applySelection_flag|]. unfold run.
  destruct (move_flag e forward (prepare' e w)) as [H|[H HN]].
  - split; [intros _; split; [exact H|]|intros _; exact H].
    intros e' s Hin. apply cursorMoved_discards; assumption.
  - split; [intros HT; congruence|].
    intros Hw. rewrite H, prepare_flag. exact Hw.
Qed.

(** *** One step along the chain *)

Lemma move_none e forward w : state w = None -> move' e forward w = (w, Normal).
Proof. unfold move. intros ->. reflexivity. Qed.

Lemma move_end e forward w r :
  state w = Some r -> target forward w r = None ->
  move' e forward w = (setState None w, Normal).
Proof. unfold move. intros -> Ht. simpl. rewrite Ht. reflexivity. Qed.

Lemma move_apply e forward (w : World) (r t : StateRef) (st : State) :
  state w = Some r -> target forward w r = Some t -> heap w !! t = Some st ->
  move' e forward w = applySelection' e (selection st) (setState (Some t) w).
Proof. unfold move. intros -> Ht Hst. simpl. rewrite Ht, Hst. reflexivity. Qed.

Lemma prepare_same e (w : World) (r : StateRef) (st : State) :
  state w = Some r -> heap w !! r = Some st -> editor st = e -> prepare' e w = w.
Proof.
  intros Hs Hr He. unfold prepare, forgetStale. rewrite Hs, Hr, He, Nat.eqb_refl.
  rewrite Hs. reflexivity.
Qed.

(** C2 (as amended). When the current node has no target in the
    requested direction, [run] sets [state] to null, discarding the
    chain, and changes nothing else: no selection is applied. Any number
    of further shrinks from the innermost node complete without changing
    any selection. *)
Theorem step_off_the_end e (forward : bool) (w : World) (r : StateRef) (st : State) :
  state w = Some r -> heap w !! r = Some st -> editor st = e ->
  (if forward then next st else previous st) = None ->
  run' e forward w = (setState None w, Normal)
  /\ (forward = false -> forall n,
        snd (runs' e false n w) = Normal
        /\ state (fst (runs' e false (S n) w)) = None
        /\ editorSelection (fst (runs' e false n w)) = editorSelection w).
Proof.
  intros Hs Hr He Ht.
  assert (Hrun : run' e forward w = (setState None w, Normal)).
  { unfold run. rewrite (prepare_same e w r st Hs Hr He).
    apply (move_end e forward w r Hs). unfold target. rewrite Hr. exact Ht. }
  split; [exact Hrun|]. intros -> n.
  (* from then on there is no chain, or a new one standing on its head *)
  assert (Hfloor : forall v, state v = None ->
            exists v', run' e false v = (v', Normal) /\ state v' = None
                       /\ editorSelection v' = editorSelection v).
  { intros v Hv. unfold run, prepare, forgetStale. rewrite Hv. cbn [state].
    rewrite Hv.
    destruct (getRangesToPosition e (Selection_getStartPosition (editorSelection v e)))
      as [|c cs] eqn:Hel.
    - rewrite (buildChain_empty e v Hel), (move_none _ _ _ Hv). eauto.
    - destruct (buildChain_built e v c cs Hel) as (h & k & nx & -> & Hk & _).
      erewrite (move_end e false _ k);
        [|reflexivity|unfold target; cbn [heap]; rewrite Hk; reflexivity].
      eexists. split; [reflexivity|]. split; reflexivity. }
  assert (Hiter : forall m v, state v = None ->
            snd (runs' e false m v) = Normal
            /\ state (fst (runs' e false m v)) = None
            /\ editorSelection (fst (runs' e false m v)) = editorSelection v).
  { induction m as [|m IH]; intros v Hv; [repeat split; assumption|].
    destruct (Hfloor v Hv) as (v' & Hv' & Hs' & Hsel'). cbn [runs]. rewrite Hv'.
    destruct (IH v' Hs') as (H1 & H2 & H3). repeat split; congruence. }
  destruct n as [|n].
  - cbn [runs]. rewrite Hrun. repeat split; reflexivity.
  - destruct (Hiter n (setState None w) eq_refl) as (H1 & H2 & H3).
    destruct (Hiter (S n) (setState None w) eq_refl) as (_ & H2' & _).
    change (runs' e false (S (S n)) w)
      with (match run' e false w with
            | (w', Normal) => runs' e false (S n) w'
            | (w', Thrown) => (w', Thrown)
            end).
    change (runs' e false (S n) w)
      with (match run' e false w with
            | (w', Normal) => runs' e false n w'
            | (w', Thrown) => (w', Thrown)
            end).
    rewrite Hrun. repeat split; assumption.
Qed.

(** *** Consistency of the worlds met in use *)

Lemma forgetStale_consistent e w : consistent w -> consistent (forgetStale e w).
Proof.
  intros (HL & HF & HS). unfold forgetStale.
  destruct (state w) as [r|] eqn:Hs; [|(split; [|split]; assumption)].
  destruct (heap w !! r) as [st|] eqn:Hr; [|(split; [|split]; assumption)].
  destruct (editor st =? e); [(split; [|split]; assumption)|].
  split; [exact HL|]. split; [exact HF|]. intros k [=].
Qed.

Lemma forgetStale_editor e (w : World) (r : StateRef) (st : State) :
  state (forgetStale e w) = Some r -> heap w !! r = Some st -> editor st = e.
Proof.
  unfold forgetStale. destruct (state w) as [k|] eqn:Hs; [|intros H; congruence].
  destruct (heap w !! k) as [sk|] eqn:Hk.
  - destruct (editor sk =? e) eqn:He.
    + intros H Hr. rewrite Hs in H. injection H as <-.
      apply Nat.eqb_eq in He. congruence.
    + cbn [state setState]. discriminate.
  - intros H Hr. rewrite Hs in H. injection H as <-. congruence.
Qed.

Lemma buildChain_consistent e w :
  consistent w -> state w = None ->
  consistent (buildChain' e w)
  /\ forall (r : StateRef) (st : State),
       state (buildChain' e w) = Some r -> heap (buildChain' e w) !! r = Some st ->
       editor st = e.
Proof.
  intros (HL & HF & HS) Hnone.
  destruct (getRangesToPosition e (Selection_getStartPosition (editorSelection w e)))
    as [|c cs] eqn:Hel.
  - rewrite (buildChain_empty e w Hel). split; [(split; [|split]; assumption)|].
    intros r st Hr. congruence.
  - destruct (buildChain_built e w c cs Hel) as (h & k & nx & -> & Hk & _ & _ & Hlinked).
    split.
    + split; [exact (Hlinked HL)|]. split; [exact HF|].
      intros r [= <-]. cbn [heap editorSelection listeners].
      eexists. split; [exact Hk|]. split; [reflexivity | left; reflexivity].
    + cbn [state heap]. intros r st [= <-] Hst. rewrite Hk in Hst.
      injection Hst as <-. reflexivity.
Qed.

Lemma prepare_consistent e w :
  consistent w ->
  consistent (prepare' e w)
  /\ forall (r : StateRef) (st : State),
       state (prepare' e w) = Some r -> heap (prepare' e w) !! r = Some st ->
       editor st = e.
Proof.
  intros Hc. pose proof (forgetStale_consistent e w Hc) as Hc1. unfold prepare.
  destruct (state (forgetStale e w)) as [r|] eqn:Hs.
  - split; [exact Hc1|]. intros k st Hk Hst.
    rewrite forgetStale_heap in Hst. rewrite Hs in Hk. injection Hk as <-.
    eapply forgetStale_editor; eauto.
  - apply buildChain_consistent; assumption.
Qed.

Lemma move_consistent e forward w :
  consistent w ->
  (forall (r : StateRef) (st : State),
     state w = Some r -> heap w !! r = Some st -> editor st = e) ->
  snd (move' e forward w) = Normal ->
  consistent (fst (move' e forward w)).
Proof.
  intros (HL & HF & HS) Hed Hnormal.
  destruct (state w) as [r|] eqn:Hs.
  - destruct (HS r Hs) as (st & Hr & Hsel & Hin).
    destruct (target forward w r) as [t|] eqn:Ht.
    + assert (Hlink : exists st', heap w !! t = Some st' /\ editor st' = editor st).
      { unfold target in Ht. rewrite Hr in Ht. destruct (HL r st Hr) as [H1 H2].
        destruct forward.
        - destruct (H1 t Ht) as (sb & ? & ? & ?). eauto.
        - destruct (H2 t Ht) as (sb & ? & ? & ?). eauto. }
      destruct Hlink as (st' & Hst' & Hed').
      rewrite (move_apply e forward w r t st' Hs Ht Hst') in *.
      destruct (setSelectionThrows e (selection st')) eqn:Hthrow.
      * rewrite applySelection_thrown in Hnormal by assumption. discriminate.
      * rewrite applySelection_normal by assumption. cbn [fst].
        split; [exact HL|]. split; [reflexivity|].
        intros k [= <-]. exists st'. simpl. split; [exact Hst'|]. split.
        -- rewrite Hed', (Hed r st eq_refl Hr), Nat.eqb_refl. reflexivity.
        -- rewrite Hed'. exact Hin.
    + rewrite (move_end e forward w r Hs Ht). cbn [fst].
      split; [exact HL|]. split; [exact HF|]. intros k [=].
  - rewrite (move_none e forward w Hs). cbn [fst].
    split; [exact HL|]. split; [exact HF|]. intros k Hk. congruence.
Qed.

Lemma run_consistent e forward w :
  consistent w -> snd (run' e forward w) = Normal -> consistent (fst (run' e forward w)).
Proof.
  intros Hc Hn. destruct (prepare_consistent e w Hc) as [Hp Hed].
  unfold run in *. apply move_consistent; assumption.
Qed.

Lemma cursorMoved_consistent e s w : consistent w -> consistent (cursorMoved e s w).
Proof.
  intros (HL & HF & HS). unfold cursorMoved, onDidChangeCursorPosition.
  cbn [ignoreSelection select listeners]. rewrite HF.
  destruct (existsb (Nat.eqb e) (listeners w)) eqn:Hex.
  - split; [exact HL|]. split; [first [exact HF | reflexivity]|]. intros k [=].
  - split; [exact HL|]. split; [first [exact HF | reflexivity]|].
    intros k Hk. cbn [state select] in Hk.
    destruct (HS k Hk) as (st & Hr & Hsel & Hin).
    exists st. cbn [heap editorSelection listeners select].
    split; [exact Hr|]. split; [|exact Hin].
    destruct (editor st =? e) eqn:He; [|exact Hsel].
    apply Nat.eqb_eq in He. subst e.
    apply existsb_eqb_In in Hin. congruence.
Qed.

Lemma reachable_consistent w :
  reachable getRangesToPosition setSelectionThrows w -> consistent w.
Proof.
  induction 1 as [sel|w e forward _ IH Hn|w e s _ IH].
  - split; [|split; [reflexivity|intros r [=]]].
    intros a sa Ha. destruct a; discriminate.
  - apply run_consistent; assumption.
  - apply cursorMoved_consistent; assumption.
Qed.

(** A shrink from a world without chain changes no selection. *)
Lemma shrink_without_chain e w :
  state w = None ->
  editorSelection (fst (run' e false w)) = editorSelection w.
Proof.
  intros Hv. unfold run, prepare, forgetStale. rewrite Hv. cbn [state]. rewrite Hv.
  destruct (getRangesToPosition e (Selection_getStartPosition (editorSelection w e)))
    as [|c cs] eqn:Hel.
  - rewrite (buildChain_empty e w Hel), (move_none _ _ _ Hv). reflexivity.
  - destruct (buildChain_built e w c cs Hel) as (h & k & nx & -> & Hk & _).
    erewrite (move_end e false _ k);
      [|reflexivity|unfold target; cbn [heap]; rewrite Hk; reflexivity].
    reflexivity.
Qed.

(** C5 (as amended). In every world reached through calls of [run] that
    did not throw and through cursor moves from outside, a grow
    immediately followed by a shrink (neither throwing) leaves every
    editor with the selection it had before the grow; at the outward end
    of the chain the grow applies no selection at all. *)
Theorem grow_then_shrink e w :
  reachable getRangesToPosition setSelectionThrows w ->
  snd (run' e true w) = Normal ->
  snd (run' e false (fst (run' e true w))) = Normal ->
  (forall e', editorSelection (fst (run' e false (fst (run' e true w)))) e'
              = editorSelection w e')
  /\ (forall (r : StateRef) (st : State),
        state (prepare' e w) = Some r -> heap (prepare' e w) !! r = Some st ->
        next st = None ->
        editorSelection (fst (run' e true w)) = editorSelection w).
Proof.
  intros Hreach Hgrow Hshrink.
  pose proof (reachable_consistent w Hreach) as Hc.
  destruct (prepare_consistent e w Hc) as [(HL & HF & HS) Hed].
  pose proof (prepare_selection e w) as Hpsel.
  split.
  - intros e'. unfold run in Hgrow, Hshrink |- * at 2.
    destruct (state (prepare' e w)) as [r|] eqn:Hs.
    + destruct (HS r Hs) as (st & Hr & Hsel & Hin).
      pose proof (Hed r st eq_refl Hr) as Hest.
      destruct (next st) as [t|] eqn:Hnext.
      * destruct (HL r st Hr) as [H1 _].
        destruct (H1 t Hnext) as (st' & Hst' & Hprev & Hed').
        assert (Ht : target true (prepare' e w) r = Some t)
          by (unfold target; rewrite Hr; exact Hnext).
        rewrite (move_apply e true _ r t st' Hs Ht Hst') in *.
        destruct (setSelectionThrows e (selection st')) eqn:Hthrow1;
          [rewrite applySelection_thrown in Hgrow by assumption; discriminate|].
        rewrite applySelection_normal in * by assumption. cbn [fst] in *.
        set (w1 := setIgnoreSelection false
                     (select e (toSelection (selection st')) (setState (Some t) (prepare' e w)))) in *.
        assert (Hst1 : heap w1 !! t = Some st') by exact Hst'.
        assert (Hp1 : prepare' e w1 = w1).
        { apply (prepare_same e w1 t st'); [reflexivity|exact Hst1|congruence]. }
        unfold run in *. rewrite Hp1 in *.
        assert (Ht1 : target false w1 t = Some r)
          by (unfold target; rewrite Hst1; exact Hprev).
        assert (Hr1 : heap w1 !! r = Some st) by exact Hr.
        rewrite (move_apply e false w1 t r st eq_refl Ht1 Hr1) in *.
        destruct (setSelectionThrows e (selection st)) eqn:Hthrow2;
          [rewrite applySelection_thrown in Hshrink by assumption; discriminate|].
        rewrite applySelection_normal by assumption.
        cbn [fst editorSelection setIgnoreSelection select setState w1].
        rewrite <- Hpsel.
        destruct (e' =? e) eqn:He'; [|reflexivity].
        apply Nat.eqb_eq in He'. subst e'. rewrite <- Hsel, Hest. reflexivity.
      * assert (Ht : target true (prepare' e w) r = None)
          by (unfold target; rewrite Hr; exact Hnext).
        rewrite (move_end e true _ r Hs Ht) in *. cbn [fst] in *.
        rewrite shrink_without_chain by reflexivity.
        cbn [editorSelection setState]. rewrite Hpsel. reflexivity.
    + rewrite (move_none e true _ Hs) in *. cbn [fst] in *.
      rewrite shrink_without_chain by assumption. rewrite Hpsel. reflexivity.
  - intros r st Hs Hr Hnext. unfold run.
    assert (Ht : target true (prepare' e w) r = None)
      by (unfold target; rewrite Hr; exact Hnext).
    rewrite (move_end e true _ r Hs Ht). cbn [fst editorSelection setState].
    exact Hpsel.
Qed.

(** *** Further properties of the state machine *)

Lemma Chain_cons_inv h r x l :
  Chain h r (x :: l) ->
  exists (i : StateRef) (st : State),
    r = Some i /\ h !! i = Some st /\ selection st = x /\ Chain h (next st) l.
Proof.
  intros H. inversion H as [|i st l' Hi HC]; subst. eauto 7.
Qed.

Lemma Chain_nil_inv h r : Chain h r [] -> r = None.
Proof. intros H. inversion H. reflexivity. Qed.

Lemma runs_snoc e forward n : forall w,
  runs' e forward (S n) w
  = match runs' e forward n w with
    | (w', Normal) => run' e forward w'
    | (w', Thrown) => (w', Thrown)
    end.
Proof.
  induction n as [|n IH]; intros w.
  - cbn [runs]. destruct (run' e forward w) as [w' []]; reflexivity.
  - change (runs' e forward (S (S n)) w)
      with (match run' e forward w with
            | (w', Normal) => runs' e forward (S n) w'
            | (w', Thrown) => (w', Thrown)
            end).
    change (runs' e forward (S n) w)
      with (match run' e forward w with
            | (w', Normal) => runs' e forward n w'
            | (w', Thrown) => (w', Thrown)
            end).
    destruct (run' e forward w) as [w' []]; [apply IH | reflexivity].
Qed.

(** One step onto an existing target whose selection is accepted. *)
Lemma run_step e (forward : bool) (w : World) (r t : StateRef) (st st' : State) :
  state w = Some r -> heap w !! r = Some st -> editor st = e ->
  (if forward then next st else previous st) = Some t ->
  heap w !! t = Some st' ->
  setSelectionThrows e (selection st') = false ->
  run' e forward w
  = (setIgnoreSelection false
       (select e (toSelection (selection st')) (setState (Some t) w)), Normal).
Proof.
  intros Hs Hr He Ht Hst' Hthrow. unfold run.
  rewrite (prepare_same e w r st Hs Hr He).
  rewrite (move_apply e forward w r t st' Hs); [|unfold target; rewrite Hr; exact Ht|exact Hst'].
  apply applySelection_normal, Hthrow.
Qed.

Lemma prepare_without_chain e w : state w = None -> prepare' e w = buildChain' e w.
Proof. intros Hs. unfold prepare, forgetStale. rewrite Hs. cbn [state]. rewrite Hs. reflexivity. Qed.

Lemma applySelection_heap e x w : heap (fst (applySelection' e x w)) = heap w.
Proof.
  destruct (setSelectionThrows e x) eqn:E.
  - rewrite applySelection_thrown by assumption. reflexivity.
  - rewrite applySelection_normal by assumption. reflexivity.
Qed.

Lemma applySelection_current e x w : state (fst (applySelection' e x w)) = state w.
Proof.
  destruct (setSelectionThrows e x) eqn:E.
  - rewrite applySelection_thrown by assumption. reflexivity.
  - rewrite applySelection_normal by assumption. reflexivity.
Qed.

(** The build links the head behind its [next]. *)
Lemma buildChain_head_linked e w c cs :
  getRangesToPosition e (Selection_getStartPosition (editorSelection w e)) = c :: cs ->
  forall (r : StateRef) (st : State) (t : StateRef),
    state (buildChain' e w) = Some r ->
    heap (buildChain' e w) !! r = Some st ->
    next st = Some t ->
    exists sb, heap (buildChain' e w) !! t = Some sb /\ previous sb = Some r.
Proof.
  intros Hel r st t. unfold buildChain. rewrite Hel.
  set (kept := List.filter (enclosesSelection (editorSelection w e)) (c :: cs)).
  pose proof (forEach_chain e kept (heap w) None [] (Chain_nil _)) as HC.
  destruct (fold_left (addCandidate e) kept (heap w, None)) as [h lastState].
  cbn [fst snd] in HC. rewrite app_nil_r in HC.
  destruct lastState as [l|]; cbn [state heap].
  - inversion HC as [|? sl ? Hl _]; subst.
    assert (Hlt : l < length h) by (eapply lookup_lt_Some; eauto).
    intros [= <-]. rewrite attach_lookup_new by assumption.
    intros [= <-]. cbn [next]. intros [= <-].
    eexists. split; [apply attach_lookup_last, Hl | reflexivity].
  - intros [= <-]. rewrite lookup_snoc_new. intros [= <-]. discriminate.
Qed.


(** X9. In every world met in use the links are symmetric and stay
    within one editor: the [previous] of a node's [next] is the node
    itself, and the [next] of its [previous] too. *)
Theorem links_symmetric w (a b : StateRef) (sa : State) :
  reachable getRangesToPosition setSelectionThrows w ->
  heap w !! a = Some sa ->
  (next sa = Some b ->
     exists sb, heap w !! b = Some sb /\ previous sb = Some a /\ editor sb = editor sa)
  /\ (previous sa = Some b ->
     exists sb, heap w !! b = Some sb /\ next sb = Some a /\ editor sb = editor sa).
Proof.
  intros Hreach Ha. destruct (reachable_consistent w Hreach) as (HL & _ & _).
  destruct (HL a sa Ha) as [H1 H2]. split; [apply H1 | apply H2].
Qed.


(** X11. After a call of [run] from a world met in use, whether it
    throws or not, the current node (if any) belongs to the calling
    editor: a chain of another editor is never stepped. *)
Theorem chain_belongs_to_caller e forward w (r : StateRef) (st : State) :
  reachable getRangesToPosition setSelectionThrows w ->
  state (fst (run' e forward w)) = Some r ->
  heap (fst (run' e forward w)) !! r = Some st ->
  editor st = e.
Proof.
  intros Hreach. pose proof (reachable_consistent w Hreach) as Hc.
  destruct (prepare_consistent e w Hc) as [(HL & HF & HS) Hed].
  unfold run. set (wp := prepare' e w) in *.
  destruct (state wp) as [k|] eqn:Hs.
  - destruct (HS k Hs) as (sk & Hk & _ & _).
    destruct (target forward wp k) as [t|] eqn:Ht.
    + assert (Hlink : exists st', heap wp !! t = Some st' /\ editor st' = editor sk).
      { unfold target in Ht. rewrite Hk in Ht. destruct (HL k sk Hk) as [H1 H2].
        destruct forward.
        - destruct (H1 t Ht) as (sb & ? & ? & ?). eauto.
        - destruct (H2 t Ht) as (sb & ? & ? & ?). eauto. }
      destruct Hlink as (st' & Hst' & Hed').
      rewrite (move_apply e forward wp k t st' Hs Ht Hst').
      rewrite applySelection_heap, applySelection_current. cbn [state heap setState].
      intros [= <-] Hst. rewrite Hst' in Hst. injection Hst as <-.
      rewrite Hed'. apply (Hed k sk eq_refl Hk).
    + rewrite (move_end e forward wp k Hs Ht). cbn [fst state setState]. discriminate.
  - rewrite (move_none e forward wp Hs). cbn [fst]. intros H. congruence.
Qed.

(** X12. Without a chain and with a provider that answers nothing, [run]
    changes nothing at all: no chain, no listener, no selection. *)
Theorem empty_provider_no_op e forward w :
  state w = None ->
  getRangesToPosition e (Selection_getStartPosition (editorSelection w e)) = [] ->
  run' e forward w = (w, Normal).
Proof.
  intros Hs Hel. unfold run.
  rewrite (prepare_without_chain e w Hs), (buildChain_empty e w Hel).
  apply move_none, Hs.
Qed.

(** X13. Without a chain, a grow selects the last entry received from
    the provider among those that enclose the current selection, and
    that node becomes the current one, the original selection behind it. *)
Theorem first_grow_selects_last_enclosing e w c cs k :
  state w = None ->
  getRangesToPosition e (Selection_getStartPosition (editorSelection w e)) = c :: cs ->
  last (List.filter (enclosesSelection (editorSelection w e)) (c :: cs)) = Some k ->
  setSelectionThrows e (ARange (rangeOf k)) = false ->
  snd (run' e true w) = Normal
  /\ editorSelection (fst (run' e true w)) e = toSelection (ARange (rangeOf k))
  /\ exists (t : StateRef) (st : State),
       state (fst (run' e true w)) = Some t
       /\ heap (fst (run' e true w)) !! t = Some st
       /\ selection st = ARange (rangeOf k)
       /\ exists (p : StateRef) (sp : State),
            previous st = Some p
            /\ heap (fst (run' e true w)) !! p = Some sp
            /\ selection sp = ASelection (editorSelection w e).
Proof.
  intros Hs Hel Hlast Hthrow.
  destruct (buildChain_built e w c cs Hel) as (h & r & nx & Hb & Hr & HC & _ & _).
  apply last_Some in Hlast as [l' Hkept]. rewrite Hkept in HC.
  rewrite map_app, rev_app_distr in HC. cbn [map rev app] in HC.
  apply Chain_cons_inv in HC as (i & st0 & [= <-] & Hi & _ & HC).
  assert (st0 = mkState e nx None (ASelection (editorSelection w e))) by congruence.
  subst st0. cbn [next] in HC.
  apply Chain_cons_inv in HC as (t & st' & -> & Ht & Hselt & HC).
  assert (Hprev : previous st' = Some r).
  { (* the head is linked behind its [next] by the build itself *)
    pose proof (buildChain_head_linked e w c cs Hel) as Hlinked.
    rewrite Hb in Hlinked. cbn [heap state] in Hlinked.
    destruct (Hlinked r _ t eq_refl Hr eq_refl) as (sb & Hsb & Hp).
    congruence. }
  unfold run. rewrite (prepare_without_chain e w Hs), Hb.
  erewrite move_apply; [|reflexivity|unfold target; cbn [heap]; rewrite Hr; reflexivity|exact Ht].
  rewrite applySelection_normal by (rewrite Hselt; exact Hthrow).
  cbn [fst snd editorSelection setIgnoreSelection select setState state heap].
  split; [reflexivity|]. split; [rewrite Nat.eqb_refl, Hselt; reflexivity|].
  exists t, st'. split; [reflexivity|]. split; [exact Ht|]. split; [exact Hselt|].
  exists r, (mkState e (Some t) None (ASelection (editorSelection w e))).
  split; [exact Hprev|]. split; [exact Hr | reflexivity].
Qed.

(** X14. Without a chain, when the provider answers but none of its
    entries encloses the current selection, [run] applies no selection
    and ends without a chain, yet a cursor listener has been hooked. *)
Theorem no_enclosing_candidate e forward w c cs :
  state w = None ->
  getRangesToPosition e (Selection_getStartPosition (editorSelection w e)) = c :: cs ->
  List.filter (enclosesSelection (editorSelection w e)) (c :: cs) = [] ->
  snd (run' e forward w) = Normal
  /\ state (fst (run' e forward w)) = None
  /\ editorSelection (fst (run' e forward w)) = editorSelection w
  /\ listeners (fst (run' e forward w)) = e :: listeners w.
Proof.
  intros Hs Hel Hkept.
  destruct (buildChain_built e w c cs Hel) as (h & r & nx & Hb & Hr & HC & _ & _).
  rewrite Hkept in HC. cbn [map rev] in HC.
  apply Chain_cons_inv in HC as (i & st0 & [= <-] & Hi & _ & HC).
  assert (st0 = mkState e nx None (ASelection (editorSelection w e))) by congruence.
  subst st0. cbn [next] in HC. apply Chain_nil_inv in HC. subst nx.
  unfold run. rewrite (prepare_without_chain e w Hs), Hb.
  erewrite move_end;
    [|reflexivity|unfold target; cbn [heap]; rewrite Hr; destruct forward; reflexivity].
  repeat split.
Qed.

(** X15. From a node of the calling editor in a world met in use, [n]
    grows that stay within the chain and do not throw leave the editor
    on the selection of the [n]-th node outward. *)
Theorem grows_walk e n : forall w (r : StateRef) (st : State) l x,
  reachable getRangesToPosition setSelectionThrows w ->
  state w = Some r -> heap w !! r = Some st -> editor st = e ->
  Chain (heap w) (Some r) l ->
  l !! n = Some x ->
  (forall y, In y l -> setSelectionThrows e y = false) ->
  snd (runs' e true n w) = Normal
  /\ editorSelection (fst (runs' e true n w)) e = toSelection x
  /\ heap (fst (runs' e true n w)) = heap w.
Proof.
  induction n as [|n IH]; intros w r st l x Hreach Hs Hr He HC Hx Hthrow.
  - cbn [runs fst snd]. split; [reflexivity|]. split; [|reflexivity].
    destruct l as [|x0 l]; [discriminate|]. injection Hx as ->.
    apply Chain_cons_inv in HC as (i & st0 & [= <-] & Hi & <- & _).
    destruct (reachable_consistent w Hreach) as (_ & _ & HS).
    destruct (HS r Hs) as (st1 & Hr1 & Hsel & _).
    assert (st1 = st) by congruence. assert (st0 = st) by congruence. subst st1 st0.
    rewrite <- He. exact Hsel.
  - destruct l as [|x0 l]; [discriminate|]. cbn [lookup list_lookup] in Hx.
    apply Chain_cons_inv in HC as (i & st0 & [= <-] & Hi & <- & HC).
    assert (st0 = st) by congruence. subst st0.
    destruct l as [|x1 l]; [discriminate|].
    apply Chain_cons_inv in HC as (t & st' & Hnext & Ht & <- & HC).
    destruct (reachable_consistent w Hreach) as (HL & _ & _).
    destruct (HL r st Hr) as [H1 _].
    destruct (H1 t Hnext) as (sb & Hsb & Hprev & Hed).
    assert (sb = st') by congruence. subst sb.
    assert (Hrun : run' e true w
                   = (setIgnoreSelection false
                        (select e (toSelection (selection st')) (setState (Some t) w)),
                      Normal)).
    { apply (run_step e true w r t st st'); try assumption.
      apply Hthrow. right. left. reflexivity. }
    set (w1 := setIgnoreSelection false
                 (select e (toSelection (selection st')) (setState (Some t) w))) in *.
    assert (Hreach1 : reachable getRangesToPosition setSelectionThrows w1).
    { pose proof (reach_run getRangesToPosition setSelectionThrows w e true Hreach) as Hn.
      rewrite Hrun in Hn. apply Hn. reflexivity. }
    destruct (IH w1 t st' (selection st' :: l) x Hreach1 eq_refl Ht
                ltac:(congruence) ltac:(econstructor; [exact Ht | exact HC]) Hx
                ltac:(intros y Hy; apply Hthrow; right; exact Hy))
      as (A & B & C).
    change (runs' e true (S n) w)
      with (match run' e true w with
            | (w', Normal) => runs' e true n w'
            | (w', Thrown) => (w', Thrown)
            end).
    rewrite Hrun. split; [exact A|]. split; [exact B | exact C].
Qed.

(** X16. From a node of the calling editor in a world met in use, [n]
    grows that stay within the chain followed by [n] shrinks, none of
    them throwing, come back to the same node with every editor's
    selection as it was. *)
Theorem grows_then_shrinks e n : forall w (r : StateRef) (st : State) l,
  reachable getRangesToPosition setSelectionThrows w ->
  state w = Some r -> heap w !! r = Some st -> editor st = e ->
  Chain (heap w) (Some r) l ->
  n < length l ->
  (forall y, In y l -> setSelectionThrows e y = false) ->
  exists w',
    runs' e false n (fst (runs' e true n w)) = (w', Normal)
    /\ state w' = Some r
    /\ heap w' = heap w
    /\ forall e', editorSelection w' e' = editorSelection w e'.
Proof.
  induction n as [|n IH]; intros w r st l Hreach Hs Hr He HC Hlen Hthrow.
  - exists w. cbn [runs fst]. repeat split; assumption.
  - destruct l as [|x0 l]; [simpl in Hlen; lia|].
    apply Chain_cons_inv in HC as (i & st0 & [= <-] & Hi & <- & HC).
    assert (st0 = st) by congruence. subst st0.
    destruct l as [|x1 l]; [simpl in Hlen; lia|].
    apply Chain_cons_inv in HC as (t & st' & Hnext & Ht & <- & HC).
    destruct (reachable_consistent w Hreach) as (HL & _ & HS).
    destruct (HL r st Hr) as [H1 _].
    destruct (H1 t Hnext) as (sb & Hsb & Hprev & Hed).
    assert (sb = st') by congruence. subst sb.
    destruct (HS r Hs) as (st1 & Hr1 & Hsel & _).
    assert (st1 = st) by congruence. subst st1.
    assert (Hrun : run' e true w
                   = (setIgnoreSelection false
                        (select e (toSelection (selection st')) (setState (Some t) w)),
                      Normal)).
    { apply (run_step e true w r t st st'); try assumption.
      apply Hthrow. right. left. reflexivity. }
    set (w1 := setIgnoreSelection false
                 (select e (toSelection (selection st')) (setState (Some t) w))) in *.
    assert (Hreach1 : reachable getRangesToPosition setSelectionThrows w1).
    { pose proof (reach_run getRangesToPosition setSelectionThrows w e true Hreach) as Hn.
      rewrite Hrun in Hn. apply Hn. reflexivity. }
    destruct (IH w1 t st' (selection st' :: l) Hreach1 eq_refl Ht
                ltac:(congruence) ltac:(econstructor; [exact Ht | exact HC])
                ltac:(simpl in *; lia)
                ltac:(intros y Hy; apply Hthrow; right; exact Hy))
      as (w1' & Hback & Hs1' & Hh1' & Hsel1').
    change (runs' e true (S n) w)
      with (match run' e true w with
            | (w', Normal) => runs' e true n w'
            | (w', Thrown) => (w', Thrown)
            end).
    rewrite Hrun. rewrite runs_snoc, Hback.
    assert (Hstep : run' e false w1'
                    = (setIgnoreSelection false
                         (select e (toSelection (selection st)) (setState (Some r) w1')),
                       Normal)).
    { apply (run_step e false w1' t r st' st); try assumption.
      - rewrite Hh1'. exact Ht.
      - congruence.
      - rewrite Hh1'. exact Hr.
      - apply Hthrow. left. reflexivity. }
    rewrite Hstep. eexists. split; [reflexivity|].
    cbn [state heap editorSelection setIgnoreSelection select setState].
    split; [reflexivity|]. split; [exact Hh1'|].
    intros e'. rewrite Hsel1'. unfold w1.
    cbn [editorSelection setIgnoreSelection select setState].
    destruct (e' =? e) eqn:He'; [|reflexivity].
    apply Nat.eqb_eq in He'. subst e'. rewrite <- Hsel, He. reflexivity.
Qed.

(** X17. From a node of the calling editor that has a [previous], in a
    world met in use, a shrink immediately followed by a grow (neither
    throwing) comes back to the same node with every editor's selection
    as it was. *)
Theorem shrink_then_grow e w (r p : StateRef) (st : State) :
  reachable getRangesToPosition setSelectionThrows w ->
  state w = Some r -> heap w !! r = Some st -> editor st = e ->
  previous st = Some p ->
  snd (run' e false w) = Normal ->
  snd (run' e true (fst (run' e false w))) = Normal ->
  state (fst (run' e true (fst (run' e false w)))) = Some r
  /\ forall e', editorSelection (fst (run' e true (fst (run' e false w)))) e'
                = editorSelection w e'.
Proof.
  intros Hreach Hs Hr He Hp Hn1 Hn2.
  destruct (reachable_consistent w Hreach) as (HL & _ & HS).
  destruct (HL r st Hr) as [_ H2].
  destruct (H2 p Hp) as (sp & Hsp & Hnext & Hed).
  destruct (HS r Hs) as (st1 & Hr1 & Hsel & _).
  assert (st1 = st) by congruence. subst st1.
  destruct (setSelectionThrows e (selection sp)) eqn:Hthrow1.
  { unfold run in Hn1. rewrite (prepare_same e w r st Hs Hr He) in Hn1.
    rewrite (move_apply e false w r p sp Hs) in Hn1;
      [|unfold target; rewrite Hr; exact Hp|exact Hsp].
    rewrite applySelection_thrown in Hn1 by assumption. discriminate. }
  rewrite (run_step e false w r p st sp Hs Hr He Hp Hsp Hthrow1) in *. cbn [fst] in *.
  set (w1 := setIgnoreSelection false
               (select e (toSelection (selection sp)) (setState (Some p) w))) in *.
  assert (Hsp1 : heap w1 !! p = Some sp) by exact Hsp.
  assert (Hr1' : heap w1 !! r = Some st) by exact Hr.
  assert (Hedp : editor sp = e) by congruence.
  destruct (setSelectionThrows e (selection st)) eqn:Hthrow2.
  { unfold run in Hn2. rewrite (prepare_same e w1 p sp eq_refl Hsp1 Hedp) in Hn2.
    rewrite (move_apply e true w1 p r st eq_refl) in Hn2;
      [|unfold target; rewrite Hsp1; exact Hnext|exact Hr1'].
    rewrite applySelection_thrown in Hn2 by assumption. discriminate. }
  rewrite (run_step e true w1 p r sp st eq_refl Hsp1 Hedp Hnext Hr1' Hthrow2).
  cbn [fst state editorSelection setIgnoreSelection select setState w1].
  split; [reflexivity|]. intros e'. unfold w1.
  cbn [editorSelection setIgnoreSelection select setState].
  destruct (e' =? e) eqn:He'; [|reflexivity].
  apply Nat.eqb_eq in He'. subst e'. rewrite <- Hsel, He. reflexivity.
Qed.

(** X18. When [setSelection] throws on the target's selection, the call
    of [run] ends by that exception with [state] already moved to the
    target, every selection untouched and [ignoreSelection] false. *)
Theorem throwing_step e (forward : bool) (w : World) (r t : StateRef) (st st' : State) :
  state w = Some r -> heap w !! r = Some st -> editor st = e ->
  (if forward then next st else previous st) = Some t ->
  heap w !! t = Some st' ->
  setSelectionThrows e (selection st') = true ->
  run' e forward w = (setIgnoreSelection false (setState (Some t) w), Thrown).
Proof.
  intros Hs Hr He Ht Hst' Hthrow. unfold run.
  rewrite (prepare_same e w r st Hs Hr He).
  rewrite (move_apply e forward w r t st' Hs); [|unfold target; rewrite Hr; exact Ht|exact Hst'].
  apply applySelection_thrown, Hthrow.
Qed.

End Facts.

(** *** The state machine on sample worlds *)

(** A grow that throws on a fresh world: the flag is down again and a
    cursor move still discards the chain. *)
Lemma guard_released_witness :
  snd (run outermostFirstProvider alwaysThrows 0 true fresh) = Thrown
  /\ ignoreSelection (fst (run outermostFirstProvider alwaysThrows 0 true fresh)) = false
  /\ state (fst (run outermostFirstProvider alwaysThrows 0 true fresh)) = Some 2
  /\ state (cursorMoved 0 (caret 1 1)
              (fst (run outermostFirstProvider alwaysThrows 0 true fresh))) = None.
Proof.
  destruct (guard_released outermostFirstProvider alwaysThrows 0 true fresh)
    as (_ & Hthrown & _).
  destruct (Hthrown eq_refl) as [Hflag Hmove].
  split; [reflexivity|]. split; [exact Hflag|]. split; [reflexivity|].
  apply Hmove. left. reflexivity.
Defined.

(** Shrinking on the innermost node: the chain is dropped, the selection
    stays. *)
Lemma step_off_the_end_witness :
  state backHome = Some 3
  /\ heap backHome !! 3 = Some (mkState 0 (Some 2) None (ASelection (newSelection 3 4 3 6)))
  /\ run outermostFirstProvider neverThrows 0 false backHome
     = (setState None backHome, Normal)
  /\ editorSelection (fst (runs outermostFirstProvider neverThrows 0 false 5 backHome)) 0
     = newSelection 3 4 3 6.
Proof.
  destruct (step_off_the_end outermostFirstProvider neverThrows 0 false backHome 3
              (mkState 0 (Some 2) None (ASelection (newSelection 3 4 3 6)))
              eq_refl eq_refl eq_refl eq_refl) as [Hrun Hrep].
  split; [reflexivity|]. split; [reflexivity|]. split; [exact Hrun|].
  destruct (Hrep eq_refl 5) as (_ & _ & Hsel). rewrite Hsel. reflexivity.
Defined.

(** C2 as stated: on the innermost node (no [previous]) a shrink does not
    leave the chain state unchanged: [state] becomes null. *)
Lemma chain_state_counterexample :
  ~ (forall r st,
       state backHome = Some r -> heap backHome !! r = Some st -> previous st = None ->
       state (fst (run outermostFirstProvider neverThrows 0 false backHome))
       = state backHome).
Proof.
  intros H.
  specialize (H 3 (mkState 0 (Some 2) None (ASelection (newSelection 3 4 3 6)))
                eq_refl eq_refl eq_refl).
  discriminate H.
Qed.

(** The chain built on the fresh world from a provider answering
    outermost first. *)
Lemma built_chain_contains_witness :
  currentChain (buildChain outermostFirstProvider 0 fresh)
    = [ASelection (newSelection 3 4 3 6); ARange (mkRange 3 2 3 8);
       ARange (mkRange 2 1 4 10); ARange (mkRange 1 1 9 1)]
  /\ nestedOutward (currentChain (buildChain outermostFirstProvider 0 fresh)).
Proof.
  destruct (built_chain_contains outermostFirstProvider 0 fresh
              (mkRange 1 1 9 1) [mkRange 2 1 4 10; mkRange 3 2 3 8] eq_refl)
    as (Hchain & _ & Hnested).
  split; [exact Hchain|]. apply Hnested.
  repeat constructor.
Defined.

(** C4 as stated: two overlapping candidates both contain the selection
    and both enter the chain, yet neither contains the other; and three
    nested ranges received innermost first give the chain head, file,
    block, statement, where the file is not contained in the block. *)
Lemma chain_not_nested_counterexample :
  (currentChain (buildChain overlappingProvider 0 fresh)
     = [ASelection (newSelection 3 4 3 6); ARange (mkRange 3 1 9 1);
        ARange (mkRange 1 1 3 9)]
   /\ ~ nestedOutward (currentChain (buildChain overlappingProvider 0 fresh)))
  /\ (currentChain (buildChain innermostFirstProvider 0 fresh)
        = [ASelection (newSelection 3 4 3 6); ARange (mkRange 1 1 9 1);
           ARange (mkRange 2 1 4 10); ARange (mkRange 3 2 3 8)]
      /\ ~ nestedOutward (currentChain (buildChain innermostFirstProvider 0 fresh))).
Proof.
  split; (split; [reflexivity|]); intros H.
  - specialize (H 1 (ARange (mkRange 3 1 9 1)) (ARange (mkRange 1 1 3 9)) eq_refl eq_refl).
    discriminate H.
  - specialize (H 1 (ARange (mkRange 1 1 9 1)) (ARange (mkRange 2 1 4 10)) eq_refl eq_refl).
    discriminate H.
Qed.

(** C5 as stated: after a grow during which [setSelection] threw, the
    chain stands on the statement while the editor still shows 3:4-3:6;
    from that chain position a grow and a shrink that both complete end
    on 3:2-3:8, not on the selection that held before the grow. *)
Lemma after_throw_counterexample :
  state afterThrow = Some 2
  /\ editorSelection afterThrow 0 = newSelection 3 4 3 6
  /\ snd (run outermostFirstProvider neverThrows 0 true afterThrow) = Normal
  /\ snd (run outermostFirstProvider neverThrows 0 false
            (fst (run outermostFirstProvider neverThrows 0 true afterThrow))) = Normal
  /\ editorSelection
       (fst (run outermostFirstProvider neverThrows 0 false
               (fst (run outermostFirstProvider neverThrows 0 true afterThrow)))) 0
     = newSelection 3 2 3 8
  /\ editorSelection
       (fst (run outermostFirstProvider neverThrows 0 false
               (fst (run outermostFirstProvider neverThrows 0 true afterThrow)))) 0
     <> editorSelection afterThrow 0.
Proof.
  split; [reflexivity|]. split; [reflexivity|]. split; [reflexivity|].
  split; [reflexivity|]. split; [reflexivity|]. discriminate.
Qed.

Lemma fresh_reachable : reachable outermostFirstProvider neverThrows fresh.
Proof. exact (reach_init outermostFirstProvider neverThrows (fun _ => newSelection 3 4 3 6)). Defined.

(** Grow then shrink from the original selection, and from the first
    candidate. *)
Lemma grow_then_shrink_witness :
  editorSelection
    (fst (run outermostFirstProvider neverThrows 0 false
            (fst (run outermostFirstProvider neverThrows 0 true fresh)))) 0
  = newSelection 3 4 3 6
  /\ editorSelection (fst (run outermostFirstProvider neverThrows 0 true fresh)) 0
     = newSelection 3 2 3 8
  /\ editorSelection
       (fst (run outermostFirstProvider neverThrows 0 false
               (fst (run outermostFirstProvider neverThrows 0 true
                       (fst (run outermostFirstProvider neverThrows 0 true fresh)))))) 0
     = newSelection 3 2 3 8.
Proof.
  split; [|split; [reflexivity|]].
  - apply (proj1 (grow_then_shrink outermostFirstProvider neverThrows 0 fresh
                    fresh_reachable eq_refl eq_refl) 0).
  - apply (proj1 (grow_then_shrink outermostFirstProvider neverThrows 0
                    (fst (run outermostFirstProvider neverThrows 0 true fresh))
                    (reach_run outermostFirstProvider neverThrows fresh 0 true
                       fresh_reachable eq_refl)
                    eq_refl eq_refl) 0).
Defined.

(** *** Further properties on sample worlds *)

Lemma grown_reachable : reachable outermostFirstProvider neverThrows grown.
Proof.
  exact (reach_run outermostFirstProvider neverThrows fresh 0 true fresh_reachable eq_refl).
Qed.

Lemma backHome_reachable : reachable outermostFirstProvider neverThrows backHome.
Proof.
  exact (reach_run outermostFirstProvider neverThrows grown 0 false grown_reachable eq_refl).
Qed.

Lemma backHome_chain :
  Chain (heap backHome) (Some 3)
    [ASelection (newSelection 3 4 3 6); ARange (mkRange 3 2 3 8);
     ARange (mkRange 2 1 4 10); ARange (mkRange 1 1 9 1)].
Proof.
  apply (Chain_cons (heap backHome) 3 (mkState 0 (Some 2) None (ASelection (newSelection 3 4 3 6)))
           _ eq_refl).
  apply (Chain_cons (heap backHome) 2 (mkState 0 (Some 1) (Some 3) (ARange (mkRange 3 2 3 8))) _ eq_refl).
  apply (Chain_cons (heap backHome) 1 (mkState 0 (Some 0) (Some 2) (ARange (mkRange 2 1 4 10))) _ eq_refl).
  apply (Chain_cons (heap backHome) 0 (mkState 0 None (Some 1) (ARange (mkRange 1 1 9 1))) _ eq_refl).
  apply Chain_nil.
Qed.


(** The head of the chain of [grown] and the statement behind it. *)
Lemma links_symmetric_witness :
  heap grown !! 3 = Some (mkState 0 (Some 2) None (ASelection (newSelection 3 4 3 6)))
  /\ exists sb, heap grown !! 2 = Some sb /\ previous sb = Some 3 /\ editor sb = 0.
Proof.
  split; [reflexivity|].
  exact (proj1 (links_symmetric outermostFirstProvider neverThrows grown 3 2
                  (mkState 0 (Some 2) None (ASelection (newSelection 3 4 3 6)))
                  grown_reachable eq_refl) eq_refl).
Defined.


(** Editor 1 steps while the chain belongs to editor 0. *)
Lemma chain_belongs_to_caller_witness :
  state (fst (run outermostFirstProvider neverThrows 1 true grown)) = Some 6
  /\ heap (fst (run outermostFirstProvider neverThrows 1 true grown)) !! 6
     = Some (mkState 1 (Some 5) (Some 7) (ARange (mkRange 3 2 3 8)))
  /\ editor (mkState 1 (Some 5) (Some 7) (ARange (mkRange 3 2 3 8))) = 1.
Proof.
  split; [reflexivity|]. split; [reflexivity|].
  exact (chain_belongs_to_caller outermostFirstProvider neverThrows 1 true grown 6
           (mkState 1 (Some 5) (Some 7) (ARange (mkRange 3 2 3 8)))
           grown_reachable eq_refl eq_refl).
Defined.

Lemma empty_provider_no_op_witness :
  run silentProvider neverThrows 0 true fresh = (fresh, Normal).
Proof.
  exact (empty_provider_no_op silentProvider neverThrows 0 true fresh eq_refl eq_refl).
Defined.

(** The provider answers file, block, statement: the statement is
    selected. *)
Lemma first_grow_selects_last_enclosing_witness :
  last (List.filter (enclosesSelection (editorSelection fresh 0))
          (outermostFirstProvider 0 (Selection_getStartPosition (editorSelection fresh 0))))
    = Some (mkRange 3 2 3 8)
  /\ editorSelection (fst (run outermostFirstProvider neverThrows 0 true fresh)) 0
     = newSelection 3 2 3 8.
Proof.
  split; [reflexivity|].
  exact (proj1 (proj2 (first_grow_selects_last_enclosing outermostFirstProvider neverThrows
                         0 fresh (mkRange 1 1 9 1) [mkRange 2 1 4 10; mkRange 3 2 3 8]
                         (mkRange 3 2 3 8) eq_refl eq_refl eq_refl eq_refl))).
Defined.

Lemma no_enclosing_candidate_witness :
  state (fst (run outsideProvider neverThrows 0 true fresh)) = None
  /\ editorSelection (fst (run outsideProvider neverThrows 0 true fresh)) 0
     = newSelection 3 4 3 6
  /\ listeners (fst (run outsideProvider neverThrows 0 true fresh)) = [0].
Proof.
  destruct (no_enclosing_candidate outsideProvider neverThrows 0 true fresh
              (mkRange 5 1 6 1) [] eq_refl eq_refl eq_refl) as (_ & Hs & Hsel & Hl).
  split; [exact Hs|]. split; [rewrite Hsel; reflexivity | exact Hl].
Defined.

(** Two grows from the innermost node reach the block. *)
Lemma grows_walk_witness :
  editorSelection (fst (runs outermostFirstProvider neverThrows 0 true 2 backHome)) 0
  = newSelection 2 1 4 10.
Proof.
  exact (proj1 (proj2 (grows_walk outermostFirstProvider neverThrows 0 2 backHome 3
                         (mkState 0 (Some 2) None (ASelection (newSelection 3 4 3 6)))
                         _ (ARange (mkRange 2 1 4 10))
                         backHome_reachable eq_refl eq_refl eq_refl backHome_chain eq_refl
                         (fun _ _ => eq_refl)))).
Defined.

(** Three grows to the file and three shrinks back. *)
Lemma grows_then_shrinks_witness :
  exists w',
    runs outermostFirstProvider neverThrows 0 false 3
      (fst (runs outermostFirstProvider neverThrows 0 true 3 backHome)) = (w', Normal)
    /\ state w' = Some 3
    /\ heap w' = heap backHome
    /\ forall e', editorSelection w' e' = editorSelection backHome e'.
Proof.
  exact (grows_then_shrinks outermostFirstProvider neverThrows 0 3 backHome 3
           (mkState 0 (Some 2) None (ASelection (newSelection 3 4 3 6)))
           _ backHome_reachable eq_refl eq_refl eq_refl backHome_chain
           ltac:(simpl; lia) (fun _ _ => eq_refl)).
Defined.

(** From the statement: shrink to the original selection, grow back. *)
Lemma shrink_then_grow_witness :
  state (fst (run outermostFirstProvider neverThrows 0 true
                (fst (run outermostFirstProvider neverThrows 0 false grown)))) = Some 2
  /\ editorSelection (fst (run outermostFirstProvider neverThrows 0 true
                (fst (run outermostFirstProvider neverThrows 0 false grown)))) 0
     = newSelection 3 2 3 8.
Proof.
  destruct (shrink_then_grow outermostFirstProvider neverThrows 0 grown 2 3
              (mkState 0 (Some 1) (Some 3) (ARange (mkRange 3 2 3 8)))
              grown_reachable eq_refl eq_refl eq_refl eq_refl eq_refl eq_refl)
    as [Hs Hsel].
  split; [exact Hs|]. rewrite Hsel. reflexivity.
Defined.

(** A grow from the statement while [setSelection] throws: the chain
    stands on the block, the editor still shows the statement. *)
Lemma throwing_step_witness :
  run outermostFirstProvider alwaysThrows 0 true grown
    = (setIgnoreSelection false (setState (Some 1) grown), Thrown)
  /\ editorSelection (fst (run outermostFirstProvider alwaysThrows 0 true grown)) 0
     = newSelection 3 2 3 8.
Proof.
  pose proof (throwing_step outermostFirstProvider alwaysThrows 0 true grown 2 1
                (mkState 0 (Some 1) (Some 3) (ARange (mkRange 3 2 3 8)))
                (mkState 0 (Some 0) (Some 2) (ARange (mkRange 2 1 4 10)))
                eq_refl eq_refl eq_refl eq_refl eq_refl eq_refl) as H.
  split; [exact H | rewrite H; reflexivity].
Defined.

End SmartSelectFacts.
